(** * Car-Game: the per-frame vehicle simulation of [InfiniteRacer]

    A shallow embedding of [src/main.ts]: the kinematic update
    [updateCarMovement] with its helpers [checkCollision],
    [createBoostEffect], [startVibration] and [respawnCar], the keyboard
    handlers [handleKeyDown] / [handleKeyUp], and [toggleCameraMode].

    The class fields of [InfiniteRacer] become one record [Game] that every
    method takes and returns.  What a call reads from outside the program
    ([Math.random], [Date.now], the [OrbitControls] library) is gathered in
    a record [Env] handed to the call.

    JavaScript numbers are IEEE-754 binary64 values.  The code is written
    once over an interface [Number] of the operators the source uses and is
    run at two instances: [binary64] (Rocq's primitive floats, the
    arithmetic the program really performs) and [exact] (rationals, the
    arithmetic of the reals restricted to what the program computes).
    What is proved for every [Number] holds for both; the bounds on the
    speed are proved at [binary64], through the rounding of each sum,
    difference and product as [SpecFloat] defines it. *)

From Stdlib Require Import Bool ZArith QArith Floats List String Ascii Lia Lqa.
Import ListNotations.

Set Warnings "-inexact-float".
Set Implicit Arguments.

(** ** Numbers *)

(** The operators and [Math] functions that [main.ts] applies to numbers.
    [lit] reads a decimal literal of the source. *)
Class Number (N : Type) : Type := {
  lit : Q -> N;
  add : N -> N -> N;
  sub : N -> N -> N;
  mul : N -> N -> N;
  div : N -> N -> N;
  neg : N -> N;
  lt : N -> N -> bool;
  le : N -> N -> bool;
  Math_abs : N -> N;
  Math_min : N -> N -> N;
  Math_max : N -> N -> N;
  Math_sqrt : N -> N;
  Math_sin : N -> N;
  Math_cos : N -> N;
  Math_PI : N
}.

Arguments lit {N Number} _%_Q.

Declare Scope num_scope.
Delimit Scope num_scope with num.
Infix "+" := add : num_scope.
Infix "-" := sub : num_scope.
Infix "*" := mul : num_scope.
Infix "/" := div : num_scope.
Notation "- x" := (neg x) : num_scope.
Infix "<?" := lt : num_scope.
Infix "<=?" := le : num_scope.
Notation "x >? y" := (lt y x) : num_scope.

(** *** binary64 *)

Module Binary64.

Definition of_Z (z : Z) : float :=
  match z with
  | Z0 => PrimFloat.zero
  | Zpos _ => PrimFloat.of_uint63 (Uint63.of_Z z)
  | Zneg p => PrimFloat.opp (PrimFloat.of_uint63 (Uint63.of_Z (Zpos p)))
  end.

(** A decimal literal [n / 10^k] with [|n|, 10^k < 2^53] is the correctly
    rounded quotient of two exactly represented integers. *)
Definition literal (q : Q) : float :=
  PrimFloat.div (of_Z (Qnum q)) (of_Z (Zpos (Qden q))).

Definition is_neg_zero (x : float) : bool :=
  PrimFloat.is_zero x && PrimFloat.get_sign x.

(** [Math.min] and [Math.max] of ECMA-262: NaN if an argument is NaN,
    and [-0] counts as smaller than [+0]. *)
Definition min (x y : float) : float :=
  if PrimFloat.is_nan x || PrimFloat.is_nan y then PrimFloat.nan
  else if PrimFloat.ltb x y then x
  else if PrimFloat.ltb y x then y
  else if is_neg_zero x then x else y.

Definition max (x y : float) : float :=
  if PrimFloat.is_nan x || PrimFloat.is_nan y then PrimFloat.nan
  else if PrimFloat.ltb y x then x
  else if PrimFloat.ltb x y then y
  else if is_neg_zero x then y else x.

(** ECMA-262 leaves [Math.sin] and [Math.cos] implementation-approximated
    and fixes only [sin(+0) = +0], [sin(-0) = -0] and [cos(0) = 1].  This
    implementation evaluates the Taylor polynomials of degree 11 and 10. *)
Definition sin (x : float) : float :=
  let x2 := PrimFloat.mul x x in
  let h (k : Z) (r : float) :=
      PrimFloat.sub 1%float (PrimFloat.mul (PrimFloat.div x2 (of_Z k)) r) in
  PrimFloat.mul x (h 6%Z (h 20%Z (h 42%Z (h 72%Z (h 110%Z 1%float))))).

Definition cos (x : float) : float :=
  let x2 := PrimFloat.mul x x in
  let h (k : Z) (r : float) :=
      PrimFloat.sub 1%float (PrimFloat.mul (PrimFloat.div x2 (of_Z k)) r) in
  h 2%Z (h 12%Z (h 30%Z (h 56%Z (h 90%Z 1%float)))).

End Binary64.

#[export] Instance binary64 : Number float := {
  lit := Binary64.literal;
  add := PrimFloat.add;
  sub := PrimFloat.sub;
  mul := PrimFloat.mul;
  div := PrimFloat.div;
  neg := PrimFloat.opp;
  lt := PrimFloat.ltb;
  le := PrimFloat.leb;
  Math_abs := PrimFloat.abs;
  Math_min := Binary64.min;
  Math_max := Binary64.max;
  Math_sqrt := PrimFloat.sqrt;
  Math_sin := Binary64.sin;
  Math_cos := Binary64.cos;
  Math_PI := 0x1.921fb54442d18p+1%float
}.

(** *** Exact rationals *)

Module Exact.

Definition lt (x y : Q) : bool := negb (Qle_bool y x).

Definition abs (x : Q) : Q := if Qle_bool 0 x then x else Qopp x.

Definition min (x y : Q) : Q := if Qle_bool x y then x else y.

Definition max (x y : Q) : Q := if Qle_bool x y then y else x.

(** Rational stand-ins for the implementation-approximated functions:
    five Newton steps for the square root, and the same Taylor
    polynomials as [Binary64]. *)
Fixpoint newton (n : nat) (a r : Q) : Q :=
  match n with
  | O => r
  | S k => newton k a (Qred ((r + a / r) / 2))
  end.

Definition sqrt (a : Q) : Q :=
  if Qle_bool a 0 then 0 else newton 5 a (Qred ((a + 1) / 2)).

Definition sin (x : Q) : Q :=
  let x2 := x * x in
  let h (k : Z) (r : Q) := 1 - (x2 / inject_Z k) * r in
  Qred (x * h 6%Z (h 20%Z (h 42%Z (h 72%Z (h 110%Z 1))))).

Definition cos (x : Q) : Q :=
  let x2 := x * x in
  let h (k : Z) (r : Q) := 1 - (x2 / inject_Z k) * r in
  Qred (h 2%Z (h 12%Z (h 30%Z (h 56%Z (h 90%Z 1))))).

End Exact.

#[export] Instance exact : Number Q := {
  lit := fun q => q;
  add := Qplus;
  sub := Qminus;
  mul := Qmult;
  div := Qdiv;
  neg := Qopp;
  lt := Exact.lt;
  le := Qle_bool;
  Math_abs := Exact.abs;
  Math_min := Exact.min;
  Math_max := Exact.max;
  Math_sqrt := Exact.sqrt;
  Math_sin := Exact.sin;
  Math_cos := Exact.cos;
  Math_PI := 3.141592653589793
}.

(** ** The scene objects the simulation touches *)

Section Model.

Context {N : Type} `{Number N}.

Local Open Scope num_scope.

(** [THREE.Vector3]; an Euler rotation is kept as its three angles. *)
Record Vector3 : Type := vec3 { v_x : N; v_y : N; v_z : N }.

(** [Vector3.add], [Vector3.lerp] and [Vector3.multiplyScalar] of three.js. *)
Definition Vector3_add (a b : Vector3) : Vector3 :=
  vec3 (v_x a + v_x b) (v_y a + v_y b) (v_z a + v_z b).

Definition Vector3_lerp (a b : Vector3) (alpha : N) : Vector3 :=
  vec3 (v_x a + (v_x b - v_x a) * alpha)
       (v_y a + (v_y b - v_y a) * alpha)
       (v_z a + (v_z b - v_z a) * alpha).

Definition Vector3_multiplyScalar (a : Vector3) (k : N) : Vector3 :=
  vec3 (v_x a * k) (v_y a * k) (v_z a * k).

(** [THREE.Object3D]: the car group and the trees. *)
Record Object3D : Type := object3D {
  position : Vector3;
  rotation : Vector3;
  scale : Vector3
}.

Definition set_position (p : Vector3) (o : Object3D) : Object3D :=
  object3D p (rotation o) (scale o).

Definition set_rotation (r : Vector3) (o : Object3D) : Object3D :=
  object3D (position o) r (scale o).

Definition set_scale (s : Vector3) (o : Object3D) : Object3D :=
  object3D (position o) (rotation o) s.

(** A flame of the boost effect: a [THREE.Mesh] with its own
    [MeshBasicMaterial], of which only [opacity] changes. *)
Record Mesh : Type := mesh {
  mesh_object : Object3D;
  opacity : N
}.

(** The camera: where it is and the point its last [lookAt] aimed at. *)
Record Camera : Type := mkCamera {
  camera_position : Vector3;
  camera_lookAt : Vector3
}.

Record OrbitControls : Type := mkOrbitControls {
  enabled : bool;
  target : Vector3
}.

(** ** The state of [InfiniteRacer]

    Fields that are never assigned after their initialiser are the
    constants below; fields the simulation never reads are left out.
    [car] is undefined until the model has loaded. *)
Record Game : Type := mkGame {
  car : option Object3D;
  camera : Camera;
  orbitControls : OrbitControls;
  speed : N;
  carRotation : N;
  isBoosting : bool;
  boostParticles : list Mesh;
  objects : list Object3D;
  isVibrating : bool;
  vibrationTime : N;
  isOrbitMode : bool;
  isAccelerating : bool;
  isBraking : bool;
  isTurningLeft : bool;
  isTurningRight : bool
}.

Definition set_car (v : option Object3D) (g : Game) : Game :=
  mkGame v (camera g) (orbitControls g) (speed g) (carRotation g)
         (isBoosting g) (boostParticles g) (objects g) (isVibrating g)
         (vibrationTime g) (isOrbitMode g) (isAccelerating g) (isBraking g)
         (isTurningLeft g) (isTurningRight g).

Definition set_camera (v : Camera) (g : Game) : Game :=
  mkGame (car g) v (orbitControls g) (speed g) (carRotation g)
         (isBoosting g) (boostParticles g) (objects g) (isVibrating g)
         (vibrationTime g) (isOrbitMode g) (isAccelerating g) (isBraking g)
         (isTurningLeft g) (isTurningRight g).

Definition set_orbitControls (v : OrbitControls) (g : Game) : Game :=
  mkGame (car g) (camera g) v (speed g) (carRotation g) (isBoosting g)
         (boostParticles g) (objects g) (isVibrating g) (vibrationTime g)
         (isOrbitMode g) (isAccelerating g) (isBraking g) (isTurningLeft g)
         (isTurningRight g).

Definition set_speed (v : N) (g : Game) : Game :=
  mkGame (car g) (camera g) (orbitControls g) v (carRotation g)
         (isBoosting g) (boostParticles g) (objects g) (isVibrating g)
         (vibrationTime g) (isOrbitMode g) (isAccelerating g) (isBraking g)
         (isTurningLeft g) (isTurningRight g).

Definition set_isBoosting (v : bool) (g : Game) : Game :=
  mkGame (car g) (camera g) (orbitControls g) (speed g) (carRotation g) v
         (boostParticles g) (objects g) (isVibrating g) (vibrationTime g)
         (isOrbitMode g) (isAccelerating g) (isBraking g) (isTurningLeft g)
         (isTurningRight g).

Definition set_boostParticles (v : list Mesh) (g : Game) : Game :=
  mkGame (car g) (camera g) (orbitControls g) (speed g) (carRotation g)
         (isBoosting g) v (objects g) (isVibrating g) (vibrationTime g)
         (isOrbitMode g) (isAccelerating g) (isBraking g) (isTurningLeft g)
         (isTurningRight g).

Definition set_isVibrating (v : bool) (g : Game) : Game :=
  mkGame (car g) (camera g) (orbitControls g) (speed g) (carRotation g)
         (isBoosting g) (boostParticles g) (objects g) v (vibrationTime g)
         (isOrbitMode g) (isAccelerating g) (isBraking g) (isTurningLeft g)
         (isTurningRight g).

Definition set_vibrationTime (v : N) (g : Game) : Game :=
  mkGame (car g) (camera g) (orbitControls g) (speed g) (carRotation g)
         (isBoosting g) (boostParticles g) (objects g) (isVibrating g) v
         (isOrbitMode g) (isAccelerating g) (isBraking g) (isTurningLeft g)
         (isTurningRight g).

Definition set_isOrbitMode (v : bool) (g : Game) : Game :=
  mkGame (car g) (camera g) (orbitControls g) (speed g) (carRotation g)
         (isBoosting g) (boostParticles g) (objects g) (isVibrating g)
         (vibrationTime g) v (isAccelerating g) (isBraking g)
         (isTurningLeft g) (isTurningRight g).

Definition set_isAccelerating (v : bool) (g : Game) : Game :=
  mkGame (car g) (camera g) (orbitControls g) (speed g) (carRotation g)
         (isBoosting g) (boostParticles g) (objects g) (isVibrating g)
         (vibrationTime g) (isOrbitMode g) v (isBraking g) (isTurningLeft g)
         (isTurningRight g).

Definition set_isBraking (v : bool) (g : Game) : Game :=
  mkGame (car g) (camera g) (orbitControls g) (speed g) (carRotation g)
         (isBoosting g) (boostParticles g) (objects g) (isVibrating g)
         (vibrationTime g) (isOrbitMode g) (isAccelerating g) v
         (isTurningLeft g) (isTurningRight g).

Definition set_isTurningLeft (v : bool) (g : Game) : Game :=
  mkGame (car g) (camera g) (orbitControls g) (speed g) (carRotation g)
         (isBoosting g) (boostParticles g) (objects g) (isVibrating g)
         (vibrationTime g) (isOrbitMode g) (isAccelerating g) (isBraking g)
         v (isTurningRight g).

Definition set_isTurningRight (v : bool) (g : Game) : Game :=
  mkGame (car g) (camera g) (orbitControls g) (speed g) (carRotation g)
         (isBoosting g) (boostParticles g) (objects g) (isVibrating g)
         (vibrationTime g) (isOrbitMode g) (isAccelerating g) (isBraking g)
         (isTurningLeft g) v.

(** The numeric fields that keep their initial value (lines 19-62, 197). *)
Definition maxSpeed : N := lit 3.
Definition normalMaxSpeed : N := lit 2.
Definition boostMaxSpeed : N := lit 10.
Definition turnSpeed : N := lit 0.0125.
Definition acceleration : N := lit 0.1.
Definition spawnPoint : Vector3 := vec3 (lit 0) (lit 0.5) (lit 0).
Definition boundarySize : N := lit 500.
Definition vibrationIntensity : N := lit 0.1.
Definition vibrationDuration : N := lit 1000.

(** ** What one call reads from outside

    One field per call site of [Math.random] and [Date.now] that a frame
    can reach, and the camera motion of [OrbitControls.update], which
    belongs to three.js. *)
Record Env : Type := mkEnv {
  random_left_x : N;        (* line 741 *)
  random_left_y : N;        (* line 742 *)
  random_right_x : N;       (* line 746 *)
  random_right_y : N;       (* line 747 *)
  now_startVibration : N;   (* line 765 *)
  now_vibration : N;        (* line 186 *)
  random_shake_x : N;       (* line 188 *)
  random_shake_y : N;       (* line 189 *)
  orbit_update : OrbitControls -> Camera -> Camera
}.

(** ** Collision test (lines 70-82) *)

Definition checkCollision (carPosition treePosition : Vector3) : bool :=
  let treeRadius := lit 1.5 in
  let carRadius := lit 1.0 in
  let dx := v_x carPosition - v_x treePosition in
  let dz := v_z carPosition - v_z treePosition in
  let distance := Math_sqrt (dx * dx + dz * dz) in
  distance <? (treeRadius + carRadius).

(** ** Boost flames (lines 695-761) *)

(** [while (this.boostParticles.length > 12) this.boostParticles.shift()] *)
Fixpoint removeOld (l : list Mesh) : list Mesh :=
  match l with
  | [] => []
  | _ :: rest => if (12 <? List.length l)%nat then removeOld rest else l
  end.

Definition newFlame (c : Object3D) (offset : Vector3) (sx sy : N) : Mesh :=
  let flickerMin := lit 0.8 in
  let flickerMax := lit 0.4 in
  mesh (object3D (Vector3_add (position c) offset)
                 (vec3 Math_PI (v_y (rotation c)) (lit 0))
                 (vec3 (flickerMin + sx * flickerMax)
                       (flickerMin + sy * flickerMax)
                       (lit 1)))
       (lit 0.8).

(** The method dereferences [this.car]; its only call site is behind the
    guard of [updateCarMovement], so the case [None] is never run. *)
Definition createBoostEffect (e : Env) (g : Game) : Game :=
  match car g with
  | None => g
  | Some c =>
    let ry := v_y (rotation c) in
    let backOffsetLeft := lit 1.2 in
    let backOffsetRight := lit 1.0 in
    let sideOffsetLeft := lit 0.4 in
    let sideOffsetRight := lit 0.35 in
    let heightOffset := lit 0.3 in
    let leftOffset :=
      vec3 (- Math_sin ry * backOffsetLeft - Math_cos ry * sideOffsetLeft)
           heightOffset
           (- Math_cos ry * backOffsetLeft + Math_sin ry * sideOffsetLeft) in
    let rightOffset :=
      vec3 (- Math_sin ry * backOffsetRight + Math_cos ry * sideOffsetRight)
           heightOffset
           (- Math_cos ry * backOffsetRight - Math_sin ry * sideOffsetRight) in
    let leftFlame := newFlame c leftOffset (random_left_x e) (random_left_y e) in
    let rightFlame := newFlame c rightOffset (random_right_x e) (random_right_y e) in
    set_boostParticles
      (removeOld (boostParticles g ++ [leftFlame; rightFlame])) g
  end.

(** ** Vibration and respawn (lines 763-773) *)

Definition startVibration (e : Env) (g : Game) : Game :=
  set_vibrationTime (now_startVibration e) (set_isVibrating true g).

Definition respawnCar (g : Game) : Game :=
  match car g with
  | None => g
  | Some c =>
    let c1 := set_position spawnPoint c in
    let c2 := set_rotation (vec3 (lit 0) (lit 0) (lit 0)) c1 in
    set_isVibrating false (set_speed (lit 0) (set_car (Some c2) g))
  end.

(** ** The per-frame update (lines 85-194), one definition per block *)

(** Lines 92-111: the ceiling and the speed; the ceiling is passed on
    because line 92 computes it once for the whole call. *)
Definition currentMaxSpeed (g : Game) : N :=
  if isBoosting g then boostMaxSpeed else normalMaxSpeed.

Definition updateSpeed (e : Env) (g : Game) : Game :=
  let currentMaxSpeed := currentMaxSpeed g in
  if isAccelerating g then
    let g1 := set_speed (Math_min (speed g + acceleration) currentMaxSpeed) g in
    if isBoosting g1 && (speed g1 >? normalMaxSpeed)
    then createBoostEffect e g1
    else g1
  else if isBraking g then
    set_speed (Math_max (speed g - acceleration * lit 2)
                        (- currentMaxSpeed / lit 2)) g
  else if Math_abs (speed g) >? lit 0.01 then
    set_speed (speed g * lit 0.95) g
  else
    set_speed (lit 0) g.

(** Lines 113-119. *)
Definition turnAmount (g : Game) : N :=
  turnSpeed * (Math_abs (speed g) / maxSpeed).

Definition add_rotation_y (d : N) (c : Object3D) : Object3D :=
  set_rotation (vec3 (v_x (rotation c)) (v_y (rotation c) + d) (v_z (rotation c))) c.

Definition sub_rotation_y (d : N) (c : Object3D) : Object3D :=
  set_rotation (vec3 (v_x (rotation c)) (v_y (rotation c) - d) (v_z (rotation c))) c.

Definition updateRotation (g : Game) (c : Object3D) : Object3D :=
  let c1 := if isTurningLeft g then add_rotation_y (turnAmount g) c else c in
  if isTurningRight g then sub_rotation_y (turnAmount g) c1 else c1.

(** Lines 121-124. *)
Definition moveForward (g : Game) (c : Object3D) : Object3D :=
  let moveDistance := speed g * lit 0.16 in
  let ry := v_y (rotation c) in
  let p := position c in
  let p1 := vec3 (v_x p + Math_sin ry * moveDistance) (v_y p) (v_z p) in
  let p2 := vec3 (v_x p1) (v_y p1) (v_z p1 + Math_cos ry * moveDistance) in
  set_position p2 c.

(** Lines 126-150. *)
Definition chaseOffset (ry : N) : Vector3 :=
  vec3 (- Math_sin ry * lit 15) (lit 7) (- Math_cos ry * lit 15).

Definition updateCameraInStep (e : Env) (c : Object3D) (g : Game) : Game :=
  let ry := v_y (rotation c) in
  let p := position c in
  if negb (isOrbitMode g) then
    let cameraOffset := chaseOffset ry in
    let pos := Vector3_lerp (camera_position (camera g))
                            (Vector3_add p cameraOffset) (lit 0.1) in
    let look := vec3 (v_x p + Math_sin ry * lit 10) (v_y p)
                     (v_z p + Math_cos ry * lit 10) in
    set_orbitControls (mkOrbitControls false (target (orbitControls g)))
      (set_camera (mkCamera pos look) g)
  else
    let oc := mkOrbitControls true p in
    set_camera (orbit_update e oc (camera g)) (set_orbitControls oc g).

(** Lines 152-162: the callback of [filter] fades and shrinks every
    flame and keeps those whose opacity is still positive. *)
Definition fade (p : Mesh) : Mesh :=
  let o := mesh_object p in
  mesh (set_scale (Vector3_multiplyScalar (scale o) (lit 0.95)) o)
       (opacity p - lit 0.15).

Fixpoint cleanUp (l : list Mesh) : list Mesh :=
  match l with
  | [] => []
  | p :: rest =>
    let p' := fade p in
    if opacity p' <=? lit 0 then cleanUp rest else p' :: cleanUp rest
  end.

(** Lines 164-166. *)
Definition outOfBounds (p : Vector3) : bool :=
  (Math_abs (v_x p) >? boundarySize) || (Math_abs (v_z p) >? boundarySize).

(** Lines 171-182: the loop over [this.objects], left at the first hit. *)
Fixpoint collide (e : Env) (previousPosition : Vector3) (c : Object3D)
         (objs : list Object3D) (g : Game) : Game :=
  match objs with
  | [] => g
  | object :: rest =>
    if checkCollision (position c) (position object) then
      let g1 := set_car (Some (set_position previousPosition c)) g in
      let g2 := set_speed (- speed g1 * lit 0.5) g1 in
      startVibration e g2
    else collide e previousPosition c rest g
  end.

(** The number of obstacles the loop of lines 173-182 tests. *)
Fixpoint collisionChecks (c : Object3D) (objs : list Object3D) : nat :=
  match objs with
  | [] => 0
  | object :: rest =>
    if checkCollision (position c) (position object) then 1
    else S (collisionChecks c rest)
  end.

Definition hits (c object : Object3D) : bool :=
  checkCollision (position c) (position object).

(** The response of lines 177-179, applied once. *)
Definition bounce (e : Env) (previousPosition : Vector3) (c : Object3D)
           (g : Game) : Game :=
  set_vibrationTime (now_startVibration e)
    (set_isVibrating true
       (set_speed (- speed g * lit 0.5)
          (set_car (Some (set_position previousPosition c)) g))).

(** Lines 184-193. *)
Definition shake (e : Env) (c : Object3D) : Object3D :=
  let p := position c in
  let x1 := v_x p + (random_shake_x e - lit 0.5) * vibrationIntensity in
  let y1 := v_y p + (random_shake_y e - lit 0.5) * vibrationIntensity in
  set_position (vec3 x1 y1 (v_z p)) c.

Definition handleVibration (e : Env) (g : Game) : Game :=
  if isVibrating g then
    let now := now_vibration e in
    if now - vibrationTime g <? vibrationDuration then
      match car g with
      | Some c => set_car (Some (shake e c)) g
      | None => g
      end
    else set_isVibrating false g
  else g.

(** The frame, block after block. *)
Definition updateCarMovement (e : Env) (g : Game) : Game :=
  match car g with
  | None => g                                          (* line 86 *)
  | Some c0 =>
    let previousPosition := position c0 in             (* line 89 *)
    let g1 := updateSpeed e g in                       (* lines 92-111 *)
    let c1 := updateRotation g1 c0 in                  (* lines 113-119 *)
    let c2 := moveForward g1 c1 in                     (* lines 121-124 *)
    let g2 := set_car (Some c2) g1 in
    let g3 := updateCameraInStep e c2 g2 in            (* lines 126-150 *)
    let g4 := set_boostParticles (cleanUp (boostParticles g3)) g3 in
    if outOfBounds (position c2) then respawnCar g4    (* lines 164-169 *)
    else
      let g5 := collide e previousPosition c2 (objects g4) g4 in
      handleVibration e g5                             (* lines 184-193 *)
  end.

(** The state a frame has built at three places of its body, for a game
    whose car is [c0]: the car after line 124, the game after line 162
    (before the boundary test), and the game after the loop of lines
    173-182 (before the vibration block). *)
Definition movedCar (e : Env) (c0 : Object3D) (g : Game) : Object3D :=
  let g1 := updateSpeed e g in
  moveForward g1 (updateRotation g1 c0).

Definition beforeChecks (e : Env) (c0 : Object3D) (g : Game) : Game :=
  let g1 := updateSpeed e g in
  let c2 := movedCar e c0 g in
  let g3 := updateCameraInStep e c2 (set_car (Some c2) g1) in
  set_boostParticles (cleanUp (boostParticles g3)) g3.

Definition afterCollisions (e : Env) (c0 : Object3D) (g : Game) : Game :=
  let g4 := beforeChecks e c0 g in
  collide e (position c0) (movedCar e c0 g) (objects g4) g4.

(** ** The callers: [animate] (lines 562-573) and the events *)

Definition animate (e : Env) (g : Game) : Game :=
  let g1 := updateCarMovement e g in
  if isOrbitMode g1
  then set_camera (orbit_update e (orbitControls g1) (camera g1)) g1
  else g1.

(** The [onLoad] callback of [loadCarModel] (lines 492-500). *)
Definition carLoaded (g : Game) : Game :=
  let carScale := lit 0.02 in
  set_car (Some (object3D (vec3 (lit 0) (lit 0.5) (lit 0))
                          (vec3 (lit 0) (lit 0) (lit 0))
                          (vec3 carScale carScale carScale))) g.

(** [String.prototype.toLowerCase] on the ASCII letters. *)
Definition lowerChar (c : ascii) : ascii :=
  let n := nat_of_ascii c in
  if (65 <=? n)%nat && (n <=? 90)%nat then ascii_of_nat (n + 32) else c.

Fixpoint toLowerCase (s : string) : string :=
  match s with
  | EmptyString => EmptyString
  | String c rest => String (lowerChar c) (toLowerCase rest)
  end.

Definition keyIs (key : string) (names : list string) : bool :=
  existsb (String.eqb key) names.

(** Lines 226-261.  In the branch of ['c'] the flag is flipped before
    [this.car] is dereferenced, so without a car only the flip remains. *)
Definition handleKeyDown (key : string) (g : Game) : Game :=
  let k := toLowerCase key in
  if keyIs k ["w"; "arrowup"]%string then set_isAccelerating true g
  else if keyIs k ["s"; "arrowdown"]%string then set_isBraking true g
  else if keyIs k ["a"; "arrowleft"]%string then set_isTurningLeft true g
  else if keyIs k ["d"; "arrowright"]%string then set_isTurningRight true g
  else if keyIs k ["c"]%string then
    let g1 := set_isOrbitMode (negb (isOrbitMode g)) g in
    if isOrbitMode g1 then
      match car g1 with
      | None => g1
      | Some c =>
        let currentOffset := chaseOffset (v_y (rotation c)) in
        let cam := mkCamera (Vector3_add (position c) currentOffset)
                            (camera_lookAt (camera g1)) in
        set_orbitControls
          (mkOrbitControls (enabled (orbitControls g1)) (position c))
          (set_camera cam g1)
      end
    else g1
  else if keyIs k ["shift"]%string then set_isBoosting true g
  else g.

(** Lines 263-285. *)
Definition handleKeyUp (key : string) (g : Game) : Game :=
  let k := toLowerCase key in
  if keyIs k ["w"; "arrowup"]%string then set_isAccelerating false g
  else if keyIs k ["s"; "arrowdown"]%string then set_isBraking false g
  else if keyIs k ["a"; "arrowleft"]%string then set_isTurningLeft false g
  else if keyIs k ["d"; "arrowright"]%string then set_isTurningRight false g
  else if keyIs k ["shift"]%string then set_isBoosting false g
  else g.

(** Lines 508-529.  The offset is built from the field [carRotation],
    not from [car.rotation.y]. *)
Definition resetOffset (r : N) : Vector3 :=
  vec3 (Math_sin r * - lit 15) (lit 7) (Math_cos r * - lit 15).

Definition toggleCameraMode (key : string) (g : Game) : Game :=
  if keyIs key ["c"; "C"]%string then
    let g1 := set_isOrbitMode (negb (isOrbitMode g)) g in
    let g2 := set_orbitControls
                (mkOrbitControls (isOrbitMode g1) (target (orbitControls g1)))
                g1 in
    match car g2 with
    | None => g2
    | Some c =>
      if isOrbitMode g2 then
        set_orbitControls
          (mkOrbitControls (enabled (orbitControls g2)) (position c)) g2
      else
        let cameraOffset := resetOffset (carRotation g2) in
        set_camera (mkCamera (Vector3_add (position c) cameraOffset)
                             (position c)) g2
    end
  else g.

(** The game the constructor leaves (lines 18-62, 315-330), around the
    trees that [createRaceTrack] has placed. *)
Definition initial (trees : list Object3D) : Game :=
  let zero := vec3 (lit 0) (lit 0) (lit 0) in
  mkGame None
         (mkCamera (vec3 (lit 0) (lit 10) (- lit 20)) zero)
         (mkOrbitControls false zero)
         (lit 0) (lit 0) false [] trees false (lit 0)
         false false false false false.

(** ** Events and reachable games

    The constructor registers [handleKeyDown] and [handleKeyUp] on the
    document, starts [animate] and loads the car; [toggleCameraMode] is
    registered nowhere. *)

Inductive Event : Type :=
| KeyDown (key : string)
| KeyUp (key : string)
| AnimationFrame (e : Env)
| CarLoaded.

Definition handle (ev : Event) (g : Game) : Game :=
  match ev with
  | KeyDown key => handleKeyDown key g
  | KeyUp key => handleKeyUp key g
  | AnimationFrame e => animate e g
  | CarLoaded => carLoaded g
  end.

Definition run (evs : list Event) (g : Game) : Game :=
  fold_left (fun g ev => handle ev g) evs g.

Inductive reachable (trees : list Object3D) : Game -> Prop :=
| reachable_initial : reachable trees (initial trees)
| reachable_handle : forall ev g,
    reachable trees g -> reachable trees (handle ev g).

(** [n] frames in a row under the same readings. *)
Fixpoint frames (n : nat) (e : Env) (g : Game) : Game :=
  match n with
  | O => g
  | S k => frames k e (animate e g)
  end.

End Model.

Arguments Vector3 N : clear implicits.
Arguments Object3D N : clear implicits.
Arguments Mesh N : clear implicits.
Arguments Camera N : clear implicits.
Arguments OrbitControls N : clear implicits.
Arguments Game N : clear implicits.
Arguments Env N : clear implicits.
Arguments Event N : clear implicits.

(** ** The spec's wording, for comparison with the code

    Modelled from the spec: section 4.1 of the specification lists the
    frame as eight steps in a fixed order and gives the ceiling of step 1
    as [maxSpeedForMode]; the definitions below follow that text and reuse
    the blocks of the code for what each step does. *)

Module Spec.

Section Spec.

Context {N : Type} `{Number N}.

Local Open Scope num_scope.

(** "boosted ceiling if isBoosting and accelerate, else normal ceiling" *)
Definition maxSpeedForMode (g : Game N) : N :=
  if isBoosting g && isAccelerating g then boostMaxSpeed else normalMaxSpeed.

(** Step 1, with no flame spawned here. *)
Definition speedUpdate (g : Game N) : Game N :=
  if isAccelerating g then
    set_speed (Math_min (speed g + acceleration) (maxSpeedForMode g)) g
  else if isBraking g then
    set_speed (Math_max (speed g - acceleration * lit 2)
                        (- maxSpeedForMode g / lit 2)) g
  else if Math_abs (speed g) >? lit 0.01 then
    set_speed (speed g * lit 0.95) g
  else
    set_speed (lit 0) g.

(** Step 7: spawn when boosting above the normal ceiling, then fade. *)
Definition particleMaintenance (e : Env N) (g : Game N) : Game N :=
  let g1 := if isBoosting g && (speed g >? normalMaxSpeed)
            then createBoostEffect e g else g in
  set_boostParticles (cleanUp (boostParticles g1)) g1.

(** Steps 1 to 8 in the listed order; step 5 ends the call on a respawn. *)
Definition step (e : Env N) (g : Game N) : Game N :=
  match car g with
  | None => g
  | Some c0 =>
    let g1 := speedUpdate g in                               (* step 1 *)
    let c2 := moveForward g1 (updateRotation g1 c0) in       (* steps 2, 3 *)
    let g4 := collide e (position c0) c2 (objects g1)
                      (set_car (Some c2) g1) in              (* step 4 *)
    if outOfBounds (position c2) then respawnCar g4          (* step 5 *)
    else
      let g6 := handleVibration e g4 in                      (* step 6 *)
      let g7 := particleMaintenance e g6 in                  (* step 7 *)
      match car g7 with
      | None => g7
      | Some c => updateCameraInStep e c g7                  (* step 8 *)
      end
  end.

End Spec.

End Spec.

(** ** Concrete games and readings

    Runs in binary64 use [quiet]: every [Math.random] reads 0.5 (no
    flicker, no jitter), the clock stands at 0 and the orbit rig leaves the
    camera alone.  In [noisy] every call of [Math.random] reads another
    value, and the clock reads 5000 when a vibration starts and 5016 in the
    vibration block of the same frame. *)

Module Run.

Definition id_camera {N : Type} (_ : OrbitControls N) (cam : Camera N) : Camera N :=
  cam.

Definition quiet : Env float :=
  mkEnv 0.5%float 0.5%float 0.5%float 0.5%float 0%float 0%float
        0.5%float 0.5%float id_camera.

Definition noisy : Env float :=
  mkEnv 0.25%float 0.75%float 0.125%float 1%float 5000%float 5016%float
        1%float 0%float id_camera.

Definition at_ (x y z : float) : Vector3 float := vec3 x y z.

Definition tree (x z : float) : Object3D float :=
  object3D (at_ x 0 z) (at_ 0 0 0) (at_ 1 1 1).

Definition carAt (p : Vector3 float) : Object3D float :=
  object3D p (at_ 0 0 0) (at_ 0.02 0.02 0.02).

(** The loaded car moved to [p], with speed [s]. *)
Definition driving (trees : list (Object3D float)) (p : Vector3 float)
           (s : float) : Game float :=
  set_speed s
    (set_car (Some (carAt p)) (initial trees)).

Definition flame (o : float) : Mesh float :=
  mesh (object3D (at_ 0 0.8 0) (at_ 0 0 0) (at_ 1 1 1)) o.

(** Heading north at full normal speed, 0.1 short of the edge [z = 500],
    throttle held, one flame alive; a tree stands 0.9 behind the car. *)
Definition nearEdge : Game float :=
  set_boostParticles [flame 0.5]
    (set_isAccelerating true
       (driving [tree 50 499] (at_ 50 0.5 499.9) 2)).

(** The same car, far from the edge, 2.4 in front of a tree and a second
    tree at the same place behind it in [objects]. *)
Definition nearTree : Game float :=
  set_isTurningLeft true
    (set_isAccelerating true
       (driving [tree 200 10; tree 0 2.7; tree 0 2.8] (at_ 0 0.5 0) 2)).

(** Boost held while braking at reverse speed 1. *)
Definition boostBrake : Game float :=
  set_isBraking true (set_isBoosting true (driving [] (at_ 0 0.5 0) (-1))).

(** Boost held while coasting at speed 8. *)
Definition boostCoast : Game float :=
  set_isBoosting true (driving [] (at_ 0 0.5 0) 8).

(** Boost and throttle held at speed 8. *)
Definition boostThrottle : Game float :=
  set_isAccelerating true (set_isBoosting true (driving [] (at_ 0 0.5 0) 8)).

(** Thirty frames of boost and throttle, then both keys released and one
    more frame. *)
Definition boostThenRelease : list (Event float) :=
  [CarLoaded; KeyDown "Shift"%string; KeyDown "w"%string]
  ++ repeat (AnimationFrame quiet) 30
  ++ [KeyUp "Shift"%string; KeyUp "w"%string; AnimationFrame quiet].

(** Scenario A of the specification: throttle held from rest. *)
Definition throttleFromRest : Game float :=
  handleKeyDown "w"%string (carLoaded (initial [])).

(** Orbit mode, with the camera wherever the rig has left it. *)
Definition orbiting : Game float :=
  set_camera (mkCamera (at_ 3 4 5) (at_ 0 0.5 0))
    (set_isOrbitMode true (driving [] (at_ 0 0.5 0) 0)).

End Run.

(** ** binary64 values read as integers

    Every finite binary64 value is an integer multiple of [2^emin64], the
    smallest positive one.  [SFord] reads a value in that unit, with its
    sign; the infinities are put beyond every finite value, at [huge], and
    the two zeros coincide.  On the values other than NaN this reading is
    monotone, so it turns the comparisons of the program into comparisons
    of integers. *)

Definition emin64 : Z := -1074.

Definition huge : Z := 2 ^ 2100.

Definition SFmag (x : spec_float) : Z :=
  match x with
  | S754_zero _ => 0
  | S754_nan => 0
  | S754_infinity _ => huge
  | S754_finite _ m e => Zpos m * 2 ^ (e - emin64)
  end.

Definition SFord (x : spec_float) : Z :=
  match x with
  | S754_zero _ => 0
  | S754_nan => 0
  | S754_infinity s => if s then - huge else huge
  | S754_finite s m e =>
      if s then - (Zpos m * 2 ^ (e - emin64)) else Zpos m * 2 ^ (e - emin64)
  end.

(** [r] is not NaN and carries the sign bit [s]. *)
Definition SFsigned (s : bool) (r : spec_float) : Prop :=
  match r with
  | S754_zero s' | S754_infinity s' | S754_finite s' _ _ => s' = s
  | S754_nan => False
  end.

Definition SFnumber (x : spec_float) : Prop :=
  valid_binary x = true /\ x <> S754_nan.

(** [mrs] holds [m] shifted right by [k] bits; its round and sticky bits
    are clear when the shift has cut nothing. *)
Definition shifted (m k : Z) (mrs : shr_record) : Prop :=
  (shr_m mrs = m / 2 ^ k)%Z
  /\ ((m mod 2 ^ k = 0)%Z -> shr_r mrs = false /\ shr_s mrs = false).

(** The value 1 in the unit [2^emin64]. *)
Definition one64 : Z := 2 ^ 1074.

Definition value (x : float) : Z := SFord (Prim2SF x).

Definition is_number (x : float) : Prop := Prim2SF x <> S754_nan.

Definition positive_finite (x : float) : Prop :=
  match Prim2SF x with S754_finite false _ _ => True | _ => False end.

(** A normal number in (0, 1]. *)
Definition normal_fraction (x : float) : Prop :=
  match Prim2SF x with
  | S754_finite false m e =>
      Zpos (digits2_pos m) = 53%Z /\ (e <= 0)%Z /\ (Zpos m <= 2 ^ (- e))%Z
  | _ => False
  end.

(** The range [-5, 10] that the speed of the car stays in. *)
Definition speed_in_range (s : float) : Prop :=
  is_number s /\ (- (5 * one64) <= value s <= 10 * one64)%Z.

(** ** Facts about the blocks of the frame, for every [Number] *)

Section Blocks.

Context {N : Type} `{Number N}.

Local Open Scope num_scope.

Implicit Types (e : Env N) (g : Game N) (c : Object3D N).

Lemma createBoostEffect_shape : forall e g,
  exists bp, createBoostEffect e g = set_boostParticles bp g.
Proof.
  intros e g. unfold createBoostEffect.
  destruct (car g).
  - eexists; reflexivity.
  - exists (boostParticles g). destruct g; reflexivity.
Qed.

Lemma updateSpeed_shape : forall e g,
  exists bp, updateSpeed e g
             = set_boostParticles bp (set_speed (speed (updateSpeed e g)) g).
Proof.
  intros e g. unfold updateSpeed.
  destruct (isAccelerating g).
  - match goal with |- context [if ?b then _ else _] => destruct b end.
    + destruct (createBoostEffect_shape e
        (set_speed (Math_min (speed g + acceleration) (currentMaxSpeed g)) g))
        as [bp ->].
      exists bp. destruct g; reflexivity.
    + exists (boostParticles g). destruct g; reflexivity.
  - exists (boostParticles g).
    destruct (isBraking g); [destruct g; reflexivity|].
    match goal with |- context [if ?b then _ else _] => destruct b end;
      destruct g; reflexivity.
Qed.

Lemma updateCameraInStep_shape : forall e c g,
  exists cam oc,
    updateCameraInStep e c g = set_camera cam (set_orbitControls oc g).
Proof.
  intros e c g. unfold updateCameraInStep.
  destruct (isOrbitMode g); simpl; do 2 eexists; destruct g; reflexivity.
Qed.

(** What the frame has before its two tests differs from the game it
    started from in the car, the speed, the camera and the flames only. *)
Lemma beforeChecks_shape : forall e c0 g,
  exists cam oc bp,
    beforeChecks e c0 g
    = set_boostParticles bp
        (set_camera cam
           (set_orbitControls oc
              (set_speed (speed (updateSpeed e g))
                 (set_car (Some (movedCar e c0 g)) g)))).
Proof.
  intros e c0 g. unfold beforeChecks.
  destruct (updateSpeed_shape e g) as [bp0 E0].
  set (g1 := updateSpeed e g) in *.
  set (c2 := movedCar e c0 g).
  destruct (updateCameraInStep_shape e c2 (set_car (Some c2) g1)) as (cam & oc & E1).
  rewrite E1. exists cam, oc.
  eexists. rewrite E0. destruct g; simpl. reflexivity.
Qed.

Lemma updateCarMovement_unfold : forall e g c0,
  car g = Some c0 ->
  updateCarMovement e g
  = if outOfBounds (position (movedCar e c0 g))
    then respawnCar (beforeChecks e c0 g)
    else handleVibration e (afterCollisions e c0 g).
Proof.
  intros e g c0 E. unfold updateCarMovement. rewrite E. reflexivity.
Qed.

Lemma respawnCar_spec : forall g c,
  car g = Some c ->
  respawnCar g
  = set_isVibrating false
      (set_speed (lit 0)
         (set_car (Some (object3D spawnPoint
                                  (vec3 (lit 0) (lit 0) (lit 0))
                                  (scale c))) g)).
Proof.
  intros g c E. unfold respawnCar. rewrite E. reflexivity.
Qed.

End Blocks.

(** ** Boundary *)

Section Boundary.

Context {N : Type} `{Number N}.

Local Open Scope num_scope.

(** C2.  Whenever the translated position has [|x| > boundarySize] or
    [|z| > boundarySize], the frame ends with the car at the spawn point
    with all three Euler angles (the heading among them) zero, with speed
    zero and with the vibration flag cleared; [animate] adds nothing to
    that. *)
Theorem respawn_when_out_of_bounds :
  forall (e : Env N) (g : Game N) (c0 : Object3D N),
    car g = Some c0 ->
    let p := position (movedCar e c0 g) in
    (Math_abs (v_x p) >? boundarySize) = true
    \/ (Math_abs (v_z p) >? boundarySize) = true ->
    forall g', g' = updateCarMovement e g \/ g' = animate e g ->
    (exists c', car g' = Some c'
                /\ position c' = spawnPoint
                /\ rotation c' = vec3 (lit 0) (lit 0) (lit 0)
                /\ v_y (rotation c') = lit 0)
    /\ speed g' = lit 0
    /\ isVibrating g' = false.
Proof.
  intros e g c0 Hcar p Hout g' Hg'.
  assert (Hb : outOfBounds p = true).
  { unfold outOfBounds. destruct Hout as [-> | ->]; [reflexivity|].
    apply orb_true_r. }
  assert (Hu : updateCarMovement e g = respawnCar (beforeChecks e c0 g)).
  { rewrite (updateCarMovement_unfold e g Hcar). fold p. rewrite Hb. reflexivity. }
  destruct (beforeChecks_shape e c0 g) as (cam & oc & bp & Hs).
  assert (Hr : exists c', car (respawnCar (beforeChecks e c0 g)) = Some c'
                /\ position c' = spawnPoint
                /\ rotation c' = vec3 (lit 0) (lit 0) (lit 0)
                /\ speed (respawnCar (beforeChecks e c0 g)) = lit 0
                /\ isVibrating (respawnCar (beforeChecks e c0 g)) = false).
  { rewrite Hs. eexists. repeat split; reflexivity. }
  destruct Hr as (c' & R1 & R2 & R3 & R4 & R5).
  assert (Ha : car g' = Some c' /\ speed g' = lit 0 /\ isVibrating g' = false).
  { destruct Hg' as [-> | ->].
    - rewrite Hu. auto.
    - unfold animate. rewrite Hu.
      destruct (isOrbitMode (respawnCar (beforeChecks e c0 g))); simpl; auto. }
  destruct Ha as (A1 & A2 & A3).
  split; [|split]; auto.
  exists c'. repeat split; auto. rewrite R3. reflexivity.
Qed.

End Boundary.

Lemma respawn_when_out_of_bounds_witness :
  car Run.nearEdge
    = Some (object3D (Run.at_ 50 0.5 499.9) (Run.at_ 0 0 0)
                     (Run.at_ 0.02 0.02 0.02))
  /\ speed (animate Run.quiet Run.nearEdge) = 0%float
  /\ isVibrating (animate Run.quiet Run.nearEdge) = false.
Proof.
  split; [reflexivity|].
  refine (proj2 (@respawn_when_out_of_bounds float binary64 Run.quiet Run.nearEdge _
                   eq_refl _ (animate Run.quiet Run.nearEdge) (or_intror eq_refl))).
  right. vm_compute. reflexivity.
Defined.

(** ** The collision loop *)

Section Collision.

Context {N : Type} `{Number N}.

Local Open Scope num_scope.

Implicit Types (e : Env N) (g : Game N) (c : Object3D N).

Lemma collide_hit : forall e prev c objs g,
  existsb (hits c) objs = true ->
  collide e prev c objs g = bounce e prev c g.
Proof.
  intros e prev c objs g. induction objs as [|o rest IH]; simpl.
  - discriminate.
  - unfold hits at 1. destruct (checkCollision (position c) (position o)).
    + reflexivity.
    + simpl. exact IH.
Qed.

Lemma collide_miss : forall e prev c objs g,
  existsb (hits c) objs = false ->
  collide e prev c objs g = g.
Proof.
  intros e prev c objs g. induction objs as [|o rest IH]; simpl.
  - reflexivity.
  - unfold hits at 1. destruct (checkCollision (position c) (position o)).
    + discriminate.
    + simpl. exact IH.
Qed.

Lemma first_hit_exists : forall c pre o post,
  hits c o = true -> existsb (hits c) (pre ++ o :: post) = true.
Proof.
  intros c pre o post Ho. rewrite existsb_app. simpl. rewrite Ho.
  apply orb_true_iff. right. reflexivity.
Qed.

Lemma collisionChecks_first_hit : forall c pre o post,
  Forall (fun t => hits c t = false) pre ->
  hits c o = true ->
  collisionChecks c (pre ++ o :: post) = S (List.length pre).
Proof.
  intros c pre o post Hpre Ho. induction Hpre as [|t pre Ht _ IH]; simpl.
  - unfold hits in Ho. rewrite Ho. reflexivity.
  - unfold hits in Ht. rewrite Ht. rewrite IH. reflexivity.
Qed.

Lemma speed_bounce : forall e prev c g,
  speed (bounce e prev c g) = - speed g * lit 0.5.
Proof. reflexivity. Qed.

Lemma car_bounce : forall e prev c g,
  car (bounce e prev c g) = Some (set_position prev c).
Proof. reflexivity. Qed.

Lemma handleVibration_bounce : forall e prev c g,
  handleVibration e (bounce e prev c g)
  = if now_vibration e - now_startVibration e <? vibrationDuration
    then set_car (Some (shake e (set_position prev c))) (bounce e prev c g)
    else set_isVibrating false (bounce e prev c g).
Proof. intros. reflexivity. Qed.

End Collision.

Section CollisionFrame.

Context {N : Type} `{Number N}.

Local Open Scope num_scope.

Implicit Types (e : Env N) (g : Game N) (c : Object3D N).

Lemma objects_beforeChecks : forall e c0 g,
  objects (beforeChecks e c0 g) = objects g.
Proof.
  intros. destruct (beforeChecks_shape e c0 g) as (cam & oc & bp & ->).
  reflexivity.
Qed.

Lemma speed_beforeChecks : forall e c0 g,
  speed (beforeChecks e c0 g) = speed (updateSpeed e g).
Proof.
  intros. destruct (beforeChecks_shape e c0 g) as (cam & oc & bp & ->).
  reflexivity.
Qed.

Lemma afterCollisions_hit : forall e c0 g,
  existsb (hits (movedCar e c0 g)) (objects g) = true ->
  afterCollisions e c0 g
  = bounce e (position c0) (movedCar e c0 g) (beforeChecks e c0 g).
Proof.
  intros e c0 g Hhit. unfold afterCollisions.
  apply collide_hit. rewrite objects_beforeChecks. exact Hhit.
Qed.

(** C1, amended.  In a frame whose translated position is inside the
    boundary, let [o] be the first obstacle of [objects] within
    [1.5 + 1.0] of that position in the X-Z plane.  After the loop the car
    stands exactly where it stood when the frame began and keeps its new
    rotation, the speed is [-s * 0.5] for the speed [s] the frame had
    just computed, vibration is on with [Date.now()] recorded, and the
    loop has tested the obstacles up to [o] and none behind it: whatever
    follows [o] in the list leaves the result the same.  The frame then
    ends with the vibration block applied to that state, which does not
    touch the speed. *)
Theorem collision_response_in_bounds :
  forall e g c0 pre o post,
    car g = Some c0 ->
    objects g = pre ++ o :: post ->
    let c2 := movedCar e c0 g in
    outOfBounds (position c2) = false ->
    Forall (fun t => checkCollision (position c2) (position t) = false) pre ->
    checkCollision (position c2) (position o) = true ->
    let g5 := afterCollisions e c0 g in
    (exists c5, car g5 = Some c5
                /\ position c5 = position c0
                /\ rotation c5 = rotation c2)
    /\ speed g5 = - speed (updateSpeed e g) * lit 0.5
    /\ isVibrating g5 = true
    /\ vibrationTime g5 = now_startVibration e
    /\ collisionChecks c2 (objects g) = S (List.length pre)
    /\ (forall post',
          collide e (position c0) c2 (pre ++ o :: post') (beforeChecks e c0 g)
          = g5)
    /\ updateCarMovement e g = handleVibration e g5
    /\ speed (updateCarMovement e g) = - speed (updateSpeed e g) * lit 0.5.
Proof.
  intros e g c0 pre o post Hcar Hobjs c2 Hin Hpre Ho g5.
  assert (Hex : existsb (hits c2) (objects g) = true).
  { rewrite Hobjs. apply first_hit_exists. exact Ho. }
  assert (E5 : g5 = bounce e (position c0) c2 (beforeChecks e c0 g)).
  { apply afterCollisions_hit. exact Hex. }
  assert (Hu : updateCarMovement e g = handleVibration e g5).
  { rewrite (updateCarMovement_unfold e g Hcar). fold c2. rewrite Hin.
    reflexivity. }
  split; [|split; [|split; [|split; [|split; [|split; [|split]]]]]].
  - rewrite E5, car_bounce. eexists. repeat split; reflexivity.
  - rewrite E5, speed_bounce, speed_beforeChecks. reflexivity.
  - rewrite E5. reflexivity.
  - rewrite E5. reflexivity.
  - rewrite Hobjs. apply collisionChecks_first_hit; assumption.
  - intros post'. rewrite E5. apply collide_hit.
    apply first_hit_exists. exact Ho.
  - exact Hu.
  - rewrite Hu, E5, handleVibration_bounce.
    destruct (now_vibration e - now_startVibration e <? vibrationDuration).
    + change (speed (bounce e (position c0) c2 (beforeChecks e c0 g))
              = - speed (updateSpeed e g) * lit 0.5).
      rewrite speed_bounce, speed_beforeChecks. reflexivity.
    + change (speed (bounce e (position c0) c2 (beforeChecks e c0 g))
              = - speed (updateSpeed e g) * lit 0.5).
      rewrite speed_bounce, speed_beforeChecks. reflexivity.
Qed.

(** C3, amended.  The frame runs its blocks in the order of the source:
    speed (with the flame spawn inside it), turning, translation, camera,
    flame fading, boundary test, collision loop, vibration.  When the
    translated position is out of bounds the call ends by [respawnCar] on
    the state in which the camera block and the flame fading have already
    run, and neither the collision loop nor the vibration block runs,
    whatever the obstacles; otherwise the collision loop and then the
    vibration block run on that state. *)
Theorem frame_order :
  forall e g c0,
    car g = Some c0 ->
    let g1 := updateSpeed e g in
    let c2 := moveForward g1 (updateRotation g1 c0) in
    let g3 := updateCameraInStep e c2 (set_car (Some c2) g1) in
    let g4 := set_boostParticles (cleanUp (boostParticles g1)) g3 in
    (outOfBounds (position c2) = true ->
       updateCarMovement e g = respawnCar g4
       /\ camera (updateCarMovement e g) = camera g3
       /\ boostParticles (updateCarMovement e g) = cleanUp (boostParticles g1)
       /\ vibrationTime (updateCarMovement e g) = vibrationTime g)
    /\ (outOfBounds (position c2) = false ->
          updateCarMovement e g
          = handleVibration e (collide e (position c0) c2 (objects g) g4)).
Proof.
  intros e g c0 Hcar g1 c2 g3 g4.
  assert (E4 : beforeChecks e c0 g = g4).
  { unfold beforeChecks, g4, g3. fold g1. unfold movedCar. fold g1. fold c2.
    destruct (updateCameraInStep_shape e c2 (set_car (Some c2) g1))
      as (cam & oc & ->). reflexivity. }
  assert (Ec : movedCar e c0 g = c2) by reflexivity.
  rewrite (updateCarMovement_unfold e g Hcar), Ec, E4.
  split; intros Hb; rewrite Hb.
  - split; [reflexivity|].
    assert (Hc4 : car g4 = Some c2).
    { unfold g4, g3.
      destruct (updateCameraInStep_shape e c2 (set_car (Some c2) g1))
        as (cam & oc & ->). reflexivity. }
    rewrite (respawnCar_spec g4 Hc4). simpl.
    repeat split.
    unfold g3.
    destruct (updateCameraInStep_shape e c2 (set_car (Some c2) g1))
      as (cam & oc & ->). simpl.
    unfold g1. destruct (updateSpeed_shape e g) as (bp & ->). reflexivity.
  - unfold afterCollisions. rewrite Ec, E4.
    replace (objects g4) with (objects g); [reflexivity|].
    rewrite <- E4. symmetry. apply objects_beforeChecks.
Qed.


End CollisionFrame.

(** *** The frames of [Run.nearEdge] and [Run.nearTree] *)

(** C1 as stated fails on the frame of [Run.nearEdge]: the only obstacle is
    1.22 from the translated position (50, 0.5, 500.22), yet the frame
    ends at the spawn point with speed 0 and no vibration, because the
    boundary test of lines 165-168 returns before the loop is reached. *)
Lemma collision_skipped_on_respawn :
  let c0 := Run.carAt (Run.at_ 50 0.5 499.9) in
  let g' := updateCarMovement Run.quiet Run.nearEdge in
  car Run.nearEdge = Some c0
  /\ objects Run.nearEdge = [Run.tree 50 499]
  /\ checkCollision (position (movedCar Run.quiet c0 Run.nearEdge))
                    (position (Run.tree 50 499)) = true
  /\ option_map (@position float) (car g') = Some (Run.at_ 0 0.5 0)
  /\ option_map (@position float) (car g') <> Some (position c0)
  /\ speed g' = 0%float
  /\ speed g' <> (- speed (updateSpeed Run.quiet Run.nearEdge) * lit 0.5)%num
  /\ isVibrating g' = false.
Proof.
  vm_compute.
  repeat split; try (intro E; discriminate E).
Qed.

Lemma collision_response_in_bounds_witness :
  let c0 := Run.carAt (Run.at_ 0 0.5 0) in
  let g5 := afterCollisions Run.noisy c0 Run.nearTree in
  checkCollision (position (movedCar Run.noisy c0 Run.nearTree))
                 (position (Run.tree 0 2.7)) = true
  /\ option_map (@position float) (car g5) = Some (Run.at_ 0 0.5 0)
  /\ speed g5 = (-1)%float
  /\ vibrationTime g5 = 5000%float
  /\ collisionChecks (movedCar Run.noisy c0 Run.nearTree) (objects Run.nearTree)
     = 2%nat.
Proof.
  pose proof (@collision_response_in_bounds float binary64 Run.noisy
                Run.nearTree (Run.carAt (Run.at_ 0 0.5 0))
                [Run.tree 200 10] (Run.tree 0 2.7) [Run.tree 0 2.8]
                eq_refl eq_refl) as W.
  cbv zeta in W.
  assert (Hin : outOfBounds
                  (position (movedCar Run.noisy (Run.carAt (Run.at_ 0 0.5 0))
                                      Run.nearTree)) = false)
    by (vm_compute; reflexivity).
  assert (Hpre : Forall
                   (fun t => checkCollision
                      (position (movedCar Run.noisy (Run.carAt (Run.at_ 0 0.5 0))
                                          Run.nearTree))
                      (position t) = false) [Run.tree 200 10])
    by (constructor; [vm_compute; reflexivity | constructor]).
  assert (Ho : checkCollision
                 (position (movedCar Run.noisy (Run.carAt (Run.at_ 0 0.5 0))
                                     Run.nearTree))
                 (position (Run.tree 0 2.7)) = true)
    by (vm_compute; reflexivity).
  destruct (W Hin Hpre Ho) as ((c5 & Hc & Hp & _) & Hs & _ & Ht & Hn & _).
  cbv zeta. split; [exact Ho|]. split.
  - rewrite Hc. simpl. rewrite Hp. reflexivity.
  - split; [rewrite Hs; vm_compute; reflexivity|].
    split; [rewrite Ht; reflexivity|]. exact Hn.
Defined.

(** C3 as stated fails on the same frame.  It is a respawn frame, yet the
    camera has moved and the flame has faded, so steps 7 and 8 of the list
    did run; and with the collision check placed before the boundary test
    the steps of the list give another game than the code. *)
Lemma respawn_frame_has_run_camera_and_flames :
  let c0 := Run.carAt (Run.at_ 50 0.5 499.9) in
  let g' := updateCarMovement Run.quiet Run.nearEdge in
  outOfBounds (position (movedCar Run.quiet c0 Run.nearEdge)) = true
  /\ camera g' <> camera Run.nearEdge
  /\ boostParticles g' <> boostParticles Run.nearEdge
  /\ map (@opacity float) (boostParticles g') = [0.35%float]
  /\ camera (Spec.step Run.quiet Run.nearEdge) = camera Run.nearEdge
  /\ g' <> Spec.step Run.quiet Run.nearEdge.
Proof.
  vm_compute.
  repeat split; try (intro E; discriminate E).
Qed.

Lemma frame_order_witness :
  car Run.nearEdge = Some (Run.carAt (Run.at_ 50 0.5 499.9))
  /\ map (@opacity float)
         (boostParticles (updateCarMovement Run.quiet Run.nearEdge))
     = [0.35%float]
  /\ updateCarMovement Run.noisy Run.nearTree
     = handleVibration Run.noisy
         (afterCollisions Run.noisy (Run.carAt (Run.at_ 0 0.5 0)) Run.nearTree).
Proof.
  split; [reflexivity|]. split.
  - destruct (@frame_order float binary64 Run.quiet Run.nearEdge
                (Run.carAt (Run.at_ 50 0.5 499.9)) eq_refl) as [Hout _].
    destruct (Hout ltac:(vm_compute; reflexivity)) as (_ & _ & Hbp & _).
    rewrite Hbp. vm_compute. reflexivity.
  - destruct (@frame_order float binary64 Run.noisy Run.nearTree
                (Run.carAt (Run.at_ 0 0.5 0)) eq_refl) as [_ Hin].
    rewrite (Hin ltac:(vm_compute; reflexivity)).
    vm_compute. reflexivity.
Defined.


(** ** The speed update *)

Section Speed.

Context {N : Type} `{Number N}.

Local Open Scope num_scope.

Implicit Types (e : Env N) (g : Game N) (c : Object3D N).

Lemma speed_createBoostEffect : forall e g,
  speed (createBoostEffect e g) = speed g.
Proof.
  intros. destruct (createBoostEffect_shape e g) as (bp & ->). reflexivity.
Qed.

Lemma speed_updateSpeed_accelerating : forall e g,
  isAccelerating g = true ->
  speed (updateSpeed e g) = Math_min (speed g + acceleration) (currentMaxSpeed g).
Proof.
  intros e g Ha. unfold updateSpeed. rewrite Ha.
  match goal with |- context [if ?b then _ else _] => destruct b end.
  - rewrite speed_createBoostEffect. reflexivity.
  - reflexivity.
Qed.

Lemma speed_updateSpeed_braking : forall e g,
  isAccelerating g = false ->
  isBraking g = true ->
  speed (updateSpeed e g)
  = Math_max (speed g - acceleration * lit 2) (- currentMaxSpeed g / lit 2).
Proof.
  intros e g Ha Hb. unfold updateSpeed. rewrite Ha, Hb. reflexivity.
Qed.

Lemma speed_updateSpeed_coasting : forall e g,
  isAccelerating g = false ->
  isBraking g = false ->
  speed (updateSpeed e g)
  = if Math_abs (speed g) >? lit 0.01 then speed g * lit 0.95 else lit 0.
Proof.
  intros e g Ha Hb. unfold updateSpeed. rewrite Ha, Hb.
  destruct (Math_abs (speed g) >? lit 0.01); reflexivity.
Qed.

(** The speed a frame ends with is the speed of the update, or zero after
    a respawn, or minus half the speed of the update after a collision. *)
Lemma speed_updateCarMovement : forall e g,
  let s1 := speed (updateSpeed e g) in
  speed (updateCarMovement e g) = speed g
  \/ speed (updateCarMovement e g) = s1
  \/ speed (updateCarMovement e g) = lit 0
  \/ speed (updateCarMovement e g) = - s1 * lit 0.5.
Proof.
  intros e g s1. subst s1. destruct (car g) as [c0|] eqn:Hcar.
  2:{ left. unfold updateCarMovement. rewrite Hcar. reflexivity. }
  right. rewrite (updateCarMovement_unfold e g Hcar).
  destruct (beforeChecks_shape e c0 g) as (cam & oc & bp & Hs).
  destruct (outOfBounds (position (movedCar e c0 g))).
  - right. left. rewrite Hs. reflexivity.
  - unfold afterCollisions.
    destruct (existsb (hits (movedCar e c0 g)) (objects (beforeChecks e c0 g)))
      eqn:Hex.
    + right. right. rewrite (collide_hit _ _ _ _ _ Hex).
      rewrite handleVibration_bounce.
      destruct (now_vibration e - now_startVibration e <? vibrationDuration).
      * change (speed (bounce e (position c0) (movedCar e c0 g)
                              (beforeChecks e c0 g))
                = - speed (updateSpeed e g) * lit 0.5).
        rewrite speed_bounce, speed_beforeChecks. reflexivity.
      * change (speed (bounce e (position c0) (movedCar e c0 g)
                              (beforeChecks e c0 g))
                = - speed (updateSpeed e g) * lit 0.5).
        rewrite speed_bounce, speed_beforeChecks. reflexivity.
    + left. rewrite (collide_miss _ _ _ _ _ Hex).
      rewrite <- (speed_beforeChecks e c0 g).
      unfold handleVibration.
      destruct (isVibrating (beforeChecks e c0 g)); [|reflexivity].
      match goal with |- context [if ?b then _ else _] => destruct b end.
      * destruct (car (beforeChecks e c0 g)); reflexivity.
      * reflexivity.
Qed.

(** C4, amended.  The ceiling of a frame is [boostMaxSpeed] exactly when
    [isBoosting] holds, whether or not the throttle is held, and
    [normalMaxSpeed] otherwise.  That one ceiling clamps acceleration,
    [speed' = min (speed + acceleration) ceiling], and floors braking,
    [speed' = max (speed - acceleration * 2) (- ceiling / 2)]; so braking
    with the boost key held floors the speed at [- boostMaxSpeed / 2].
    The frame reaches its boundary test with that speed. *)
Theorem ceiling_follows_boost_flag_only :
  forall e g,
    (isBoosting g = true -> currentMaxSpeed g = boostMaxSpeed)
    /\ (isBoosting g = false -> currentMaxSpeed g = normalMaxSpeed)
    /\ (isAccelerating g = true ->
        speed (updateSpeed e g)
        = Math_min (speed g + acceleration) (currentMaxSpeed g))
    /\ (isAccelerating g = false -> isBraking g = true ->
        speed (updateSpeed e g)
        = Math_max (speed g - acceleration * lit 2)
                   (- currentMaxSpeed g / lit 2))
    /\ (isAccelerating g = false -> isBraking g = true -> isBoosting g = true ->
        speed (updateSpeed e g)
        = Math_max (speed g - acceleration * lit 2)
                   (- boostMaxSpeed / lit 2))
    /\ (forall c0, car g = Some c0 ->
        speed (beforeChecks e c0 g) = speed (updateSpeed e g)).
Proof.
  intros e g.
  split; [intros Hb; unfold currentMaxSpeed; rewrite Hb; reflexivity|].
  split; [intros Hb; unfold currentMaxSpeed; rewrite Hb; reflexivity|].
  split; [apply speed_updateSpeed_accelerating|].
  split; [apply speed_updateSpeed_braking|].
  split.
  - intros Ha Hk Hb. rewrite (speed_updateSpeed_braking e g Ha Hk).
    unfold currentMaxSpeed. rewrite Hb. reflexivity.
  - intros c0 _. apply speed_beforeChecks.
Qed.

End Speed.

(** C4 as stated fails on [Run.boostBrake]: boost held, throttle released,
    brake held, speed -1.  The spec's ceiling is the normal one and would
    floor the speed at -1; the code uses the boosted ceiling and the frame
    ends at -1.2. *)
Lemma braking_under_boost_uses_boost_ceiling :
  let g := Run.boostBrake in
  isBoosting g = true /\ isAccelerating g = false /\ isBraking g = true
  /\ Spec.maxSpeedForMode g = 2%float
  /\ currentMaxSpeed g = 10%float
  /\ currentMaxSpeed g <> Spec.maxSpeedForMode g
  /\ speed (Spec.speedUpdate g) = (-1)%float
  /\ speed (updateSpeed Run.quiet g) = (-1.2)%float
  /\ speed (updateCarMovement Run.quiet g) = (-1.2)%float
  /\ speed (updateCarMovement Run.quiet g)
     <> (Math_max (speed g - acceleration * lit 2) (- normalMaxSpeed / lit 2))%num.
Proof.
  vm_compute.
  repeat split; try (intro E; discriminate E).
Qed.

Lemma ceiling_follows_boost_flag_only_witness :
  isBoosting Run.boostBrake = true
  /\ isAccelerating Run.boostBrake = false
  /\ isBraking Run.boostBrake = true
  /\ speed (updateSpeed Run.quiet Run.boostBrake)
     = (Math_max (-1 - 0.1 * 2) (- 10 / 2))%float.
Proof.
  do 3 (split; [reflexivity|]).
  destruct (@ceiling_follows_boost_flag_only float binary64 Run.quiet
              Run.boostBrake) as (_ & _ & _ & _ & Hb & _).
  rewrite (Hb eq_refl eq_refl eq_refl). vm_compute. reflexivity.
Defined.

(** ** Boost flames *)

Section Flames.

Context {N : Type} `{Number N}.

Local Open Scope num_scope.

Implicit Types (e : Env N) (g : Game N) (c : Object3D N) (l : list (Mesh N)).

Lemma removeOld_short : forall l,
  (List.length l <= 12)%nat -> removeOld l = l.
Proof.
  intros l Hl. destruct l as [|p rest]; [reflexivity|].
  cbn [removeOld].
  destruct (Nat.ltb_spec 12 (List.length (p :: rest))); [lia|reflexivity].
Qed.








Lemma boostParticles_beforeChecks : forall e c0 g,
  boostParticles (beforeChecks e c0 g)
  = cleanUp (boostParticles (updateSpeed e g)).
Proof.
  intros e c0 g. unfold beforeChecks.
  destruct (updateCameraInStep_shape e (movedCar e c0 g)
              (set_car (Some (movedCar e c0 g)) (updateSpeed e g)))
    as (cam & oc & ->).
  reflexivity.
Qed.

Lemma boostParticles_updateCarMovement : forall e g c0,
  car g = Some c0 ->
  boostParticles (updateCarMovement e g)
  = cleanUp (boostParticles (updateSpeed e g)).
Proof.
  intros e g c0 Hcar.
  rewrite (updateCarMovement_unfold e g Hcar).
  rewrite <- (boostParticles_beforeChecks e c0 g).
  destruct (beforeChecks_shape e c0 g) as (cam & oc & bp & Hs).
  destruct (outOfBounds (position (movedCar e c0 g))).
  - rewrite Hs. reflexivity.
  - unfold afterCollisions.
    set (g4 := beforeChecks e c0 g).
    assert (Hc : boostParticles
                   (collide e (position c0) (movedCar e c0 g) (objects g4) g4)
                 = boostParticles g4).
    { destruct (existsb (hits (movedCar e c0 g)) (objects g4)) eqn:Hex.
      - rewrite (collide_hit _ _ _ _ _ Hex). reflexivity.
      - rewrite (collide_miss _ _ _ _ _ Hex). reflexivity. }
    rewrite <- Hc. unfold handleVibration.
    repeat match goal with
           | |- context [if ?b then _ else _] => destruct b
           | |- context [match ?o with Some _ => _ | None => _ end] => destruct o
           end; reflexivity.
Qed.





Lemma reachable_run : forall trees evs g,
  reachable trees g -> reachable trees (run evs g).
Proof.
  intros trees evs. induction evs as [|ev evs IH]; intros g Hg.
  - exact Hg.
  - cbn. apply IH. apply reachable_handle. exact Hg.
Qed.

End Flames.

Section FlameSpawn.

Context {N : Type} `{Number N}.

Local Open Scope num_scope.

Implicit Types (e : Env N) (g : Game N) (c : Object3D N).

(** C8, amended.  Two flames, left then right, are appended to the queue
    in exactly those frames in which the throttle is held, the boost flag
    is set and the speed the acceleration clamp has just assigned exceeds
    [normalMaxSpeed]; a boosting car that coasts or brakes spawns none,
    however fast it is.  Each flame sits at the car's position plus an
    offset fixed by the heading (both as they are before this frame turns
    and moves the car), carries the heading as its own rotation, starts
    at opacity 0.8, and has x and y scale [0.8 + Math.random() * 0.4].
    The queue is then cut to its 12 newest entries, and the fading of the
    same frame is applied to the new flames as well. *)
Theorem flames_spawn_under_throttle_only :
  forall e g c0,
    car g = Some c0 ->
    let s' := Math_min (speed g + acceleration) (currentMaxSpeed g) in
    let ry := v_y (rotation c0) in
    let leftOffset :=
      vec3 (- Math_sin ry * lit 1.2 - Math_cos ry * lit 0.4)
           (lit 0.3)
           (- Math_cos ry * lit 1.2 + Math_sin ry * lit 0.4) in
    let rightOffset :=
      vec3 (- Math_sin ry * lit 1.0 + Math_cos ry * lit 0.35)
           (lit 0.3)
           (- Math_cos ry * lit 1.0 - Math_sin ry * lit 0.35) in
    let flame offset rx ry' :=
      mesh (object3D (Vector3_add (position c0) offset)
                     (vec3 Math_PI ry (lit 0))
                     (vec3 (lit 0.8 + rx * lit 0.4) (lit 0.8 + ry' * lit 0.4)
                           (lit 1)))
           (lit 0.8) in
    let left := flame leftOffset (random_left_x e) (random_left_y e) in
    let right := flame rightOffset (random_right_x e) (random_right_y e) in
    (isAccelerating g = true -> isBoosting g = true ->
     (s' >? normalMaxSpeed) = true ->
     boostParticles (updateSpeed e g)
     = removeOld (boostParticles g ++ [left; right])
     /\ ((List.length (boostParticles g) <= 10)%nat ->
         boostParticles (updateSpeed e g) = boostParticles g ++ [left; right]))
    /\ (isAccelerating g && isBoosting g && (s' >? normalMaxSpeed) = false ->
        boostParticles (updateSpeed e g) = boostParticles g)
    /\ boostParticles (updateCarMovement e g)
       = cleanUp (boostParticles (updateSpeed e g)).
Proof.
  intros e g c0 Hcar s' ry leftOffset rightOffset flame left right.
  split; [|split].
  - intros Ha Hb Hs.
    assert (E : boostParticles (updateSpeed e g)
                = removeOld (boostParticles g ++ [left; right])).
    { unfold updateSpeed. rewrite Ha.
      cbn [isBoosting set_speed speed]. rewrite Hb. fold s'.
      replace (speed (set_speed s' g)) with s' by (destruct g; reflexivity).
      rewrite Hs. cbn [andb].
      unfold createBoostEffect.
      replace (car (set_speed s' g)) with (Some c0)
        by (rewrite <- Hcar; destruct g; reflexivity).
      destruct g; reflexivity. }
    split; [exact E|].
    intros Hlen. rewrite E. apply removeOld_short.
    rewrite length_app. cbn [List.length]. lia.
  - intros Hno. unfold updateSpeed.
    destruct (isAccelerating g) eqn:Ha.
    + replace (isBoosting (set_speed (Math_min (speed g + acceleration)
                                               (currentMaxSpeed g)) g))
        with (isBoosting g) by (destruct g; reflexivity).
      replace (speed (set_speed (Math_min (speed g + acceleration)
                                          (currentMaxSpeed g)) g))
        with s' by (destruct g; reflexivity).
      cbn [andb] in Hno. rewrite Hno. destruct g; reflexivity.
    + destruct (isBraking g); [destruct g; reflexivity|].
      destruct (Math_abs (speed g) >? lit 0.01); destruct g; reflexivity.
  - apply (boostParticles_updateCarMovement e g Hcar).
Qed.

End FlameSpawn.

(** C8 as stated fails on [Run.boostCoast]: the boost key is held and the
    speed is above the normal ceiling before and after the frame, but the
    throttle is released and no flame is spawned. *)
Lemma no_flame_when_coasting_under_boost :
  let g := Run.boostCoast in
  let g' := updateCarMovement Run.quiet g in
  isBoosting g = true
  /\ (speed g >? normalMaxSpeed)%num = true
  /\ (speed g' >? normalMaxSpeed)%num = true
  /\ boostParticles g = []
  /\ boostParticles (updateSpeed Run.quiet g) = []
  /\ boostParticles g' = []
  /\ List.length (boostParticles (Spec.particleMaintenance Run.quiet g')) = 2%nat.
Proof.
  vm_compute. repeat split.
Qed.

Lemma flames_spawn_under_throttle_only_witness :
  car Run.boostThrottle = Some (Run.carAt (Run.at_ 0 0.5 0))
  /\ isAccelerating Run.boostThrottle = true
  /\ isBoosting Run.boostThrottle = true
  /\ map (@opacity float) (boostParticles (updateSpeed Run.quiet Run.boostThrottle))
     = [0.8%float; 0.8%float]
  /\ map (@opacity float)
         (boostParticles (updateCarMovement Run.quiet Run.boostThrottle))
     = [0.65%float; 0.65%float].
Proof.
  do 3 (split; [reflexivity|]).
  destruct (@flames_spawn_under_throttle_only float binary64 Run.quiet
              Run.boostThrottle (Run.carAt (Run.at_ 0 0.5 0)) eq_refl)
    as (Hspawn & _ & Hframe).
  destruct (Hspawn eq_refl eq_refl ltac:(vm_compute; reflexivity))
    as (_ & Htwo).
  split.
  - rewrite (Htwo ltac:(vm_compute; lia)). vm_compute. reflexivity.
  - rewrite Hframe. vm_compute. reflexivity.
Defined.

(** ** The life of a flame *)



(** ** The speed through the events *)

Section SpeedEvents.

Context {N : Type} `{Number N}.

Lemma speed_animate : forall (e : Env N) (g : Game N),
  speed (animate e g) = speed (updateCarMovement e g).
Proof.
  intros e g. unfold animate.
  destruct (isOrbitMode (updateCarMovement e g)); reflexivity.
Qed.

Lemma speed_handleKeyDown : forall key (g : Game N),
  speed (handleKeyDown key g) = speed g.
Proof.
  intros key g. unfold handleKeyDown.
  repeat match goal with
         | |- context [if ?b then _ else _] => destruct b
         | |- context [match ?o with Some _ => _ | None => _ end] => destruct o
         end; reflexivity.
Qed.

Lemma speed_handleKeyUp : forall key (g : Game N),
  speed (handleKeyUp key g) = speed g.
Proof.
  intros key g. unfold handleKeyUp.
  repeat match goal with
         | |- context [if ?b then _ else _] => destruct b
         end; reflexivity.
Qed.

End SpeedEvents.

(** ** Order facts of binary64 *)

Section Binary64Order.

Lemma SFcompare_antisym : forall x y,
  SFcompare y x = option_map CompOpp (SFcompare x y).
Proof.
  intros [sx|sx| |sx mx ex] [sy|sy| |sy my ey]; simpl; try reflexivity;
    try (destruct sx; reflexivity); try (destruct sy; reflexivity);
    try (destruct sx, sy; reflexivity).
  destruct sx, sy; try reflexivity.
  - rewrite (Z.compare_antisym ex ey).
    destruct (ex ?= ey)%Z; simpl; try reflexivity.
    rewrite (Pos.compare_cont_antisym my mx Eq). simpl.
    rewrite !CompOpp_involutive. reflexivity.
  - rewrite (Z.compare_antisym ex ey).
    destruct (ex ?= ey)%Z; simpl; try reflexivity.
    rewrite (Pos.compare_cont_antisym mx my Eq). simpl. reflexivity.
Qed.

Lemma ltb_asym : forall x y : float,
  PrimFloat.ltb x y = true -> PrimFloat.ltb y x = false.
Proof.
  intros x y. rewrite !ltb_spec. unfold SFltb.
  rewrite (SFcompare_antisym (Prim2SF x) (Prim2SF y)).
  destruct (SFcompare (Prim2SF x) (Prim2SF y)) as [[| |]|]; simpl; congruence.
Qed.

(** [Math.min x c] is never above [c], and [Math.max x c] never below,
    for a ceiling [c] that is a number. *)
Lemma binary64_min_not_above : forall x c : float,
  PrimFloat.ltb c c = false ->
  PrimFloat.ltb c PrimFloat.nan = false ->
  PrimFloat.ltb c (Binary64.min x c) = false.
Proof.
  intros x c Hcc Hnan. unfold Binary64.min.
  destruct (PrimFloat.is_nan x || PrimFloat.is_nan c); [exact Hnan|].
  destruct (PrimFloat.ltb x c) eqn:Hxc; [apply ltb_asym; exact Hxc|].
  destruct (PrimFloat.ltb c x) eqn:Hcx; [exact Hcc|].
  destruct (Binary64.is_neg_zero x); assumption.
Qed.

Lemma binary64_max_not_below : forall x c : float,
  PrimFloat.ltb c c = false ->
  PrimFloat.ltb PrimFloat.nan c = false ->
  PrimFloat.ltb (Binary64.max x c) c = false.
Proof.
  intros x c Hcc Hnan. unfold Binary64.max.
  destruct (PrimFloat.is_nan x || PrimFloat.is_nan c); [exact Hnan|].
  destruct (PrimFloat.ltb c x) eqn:Hcx; [apply ltb_asym; exact Hcx|].
  destruct (PrimFloat.ltb x c) eqn:Hxc; [exact Hcc|].
  destruct (Binary64.is_neg_zero x); assumption.
Qed.

(** In binary64, for every state, NaN included: the speed assigned
    under throttle is not above the ceiling of the frame, and the speed
    assigned under the brake is not below minus half of it. *)
Lemma binary64_speed_clamped : forall (e : Env float) (g : Game float),
  (isAccelerating g = true ->
   (currentMaxSpeed g <? speed (updateSpeed e g))%num = false)
  /\ (isAccelerating g = false -> isBraking g = true ->
      (speed (updateSpeed e g) <? - currentMaxSpeed g / lit 2)%num = false).
Proof.
  intros e g. split.
  - intros Ha. rewrite (speed_updateSpeed_accelerating e g Ha).
    unfold currentMaxSpeed.
    destruct (isBoosting g); apply binary64_min_not_above;
      vm_compute; reflexivity.
  - intros Ha Hb. rewrite (speed_updateSpeed_braking e g Ha Hb).
    unfold currentMaxSpeed.
    destruct (isBoosting g).
    + change ((- boostMaxSpeed / lit 2)%num) with (-5)%float.
      apply binary64_max_not_below; vm_compute; reflexivity.
    + change ((- normalMaxSpeed / lit 2)%num) with (-1)%float.
      apply binary64_max_not_below; vm_compute; reflexivity.
Qed.

End Binary64Order.

(** ** Rounding in binary64

    The sum, the difference and the product of the program are the exact
    results rounded to nearest.  Rounding is monotone against every
    representable value: a bound that holds for the exact result and is
    itself a binary64 value holds for the rounded result. *)

Unset Implicit Arguments.

Section Rounding.

Local Open Scope Z_scope.

Lemma fexp_eq : forall e, SpecFloat.fexp prec emax e = Z.max (e - 53) (-1074).
Proof. intros. reflexivity. Qed.

Lemma digits2_pos_bounds : forall m,
  2 ^ (Zpos (digits2_pos m) - 1) <= Zpos m < 2 ^ (Zpos (digits2_pos m)).
Proof.
  induction m as [p IH|p IH|]; cbn [digits2_pos].
  - rewrite Pos2Z.inj_succ.
    replace (Z.succ (Zpos (digits2_pos p)) - 1) with (Z.succ (Zpos (digits2_pos p) - 1)) by lia.
    rewrite !Z.pow_succ_r by lia. lia.
  - rewrite Pos2Z.inj_succ.
    replace (Z.succ (Zpos (digits2_pos p)) - 1) with (Z.succ (Zpos (digits2_pos p) - 1)) by lia.
    rewrite !Z.pow_succ_r by lia. lia.
  - cbn. lia.
Qed.

Lemma bounded_spec : forall m e,
  bounded prec emax m e = true ->
  e = Z.max (Zpos (digits2_pos m) + e - 53) (-1074) /\ e <= 971.
Proof.
  intros m e Hb. unfold bounded, canonical_mantissa in Hb.
  apply andb_true_iff in Hb. destruct Hb as [Hc He].
  apply Z.eqb_eq in Hc. apply Z.leb_le in He.
  rewrite fexp_eq in Hc. change (emax - prec) with 971 in He. lia.
Qed.

Lemma pow2_pos : forall k, 0 <= k -> 0 < 2 ^ k.
Proof. intros. apply Z.pow_pos_nonneg; lia. Qed.

Lemma pow2_split : forall a b, 0 <= a -> 0 <= b -> 2 ^ (a + b) = 2 ^ a * 2 ^ b.
Proof. intros. apply Z.pow_add_r; assumption. Qed.

Lemma pow2_le : forall a b, 0 <= a <= b -> 2 ^ a <= 2 ^ b.
Proof. intros. apply Z.pow_le_mono_r; lia. Qed.

(** Cutting [p * 2^e] down to the precision of binary64, against a
    canonical value [ma * 2^ea]; [b] is a common base of the exponents. *)
Section Floor.

Variables (p ma : positive) (e ea b : Z).

Let d := Zpos (digits2_pos p).
Let da := Zpos (digits2_pos ma).
Let f := Z.max (d + e - 53) (-1074).
Let n := Z.max 0 (f - e).

Hypothesis Hcan : ea = Z.max (da + ea - 53) (-1074).
Hypothesis Hbe : b <= e.
Hypothesis Hba : b <= ea.

Lemma digits_gap :
  ea < f -> Zpos ma * 2 ^ (ea - b) < 2 ^ (d - 1 + e - b) /\ f = d + e - 53.
Proof.
  intros Hlt.
  assert (Hf : f = d + e - 53) by (unfold f in *; lia).
  assert (Hd : da + ea <= d + e - 1) by (unfold f in *; lia).
  split; [|exact Hf].
  pose proof (digits2_pos_bounds ma) as [_ Hma]. fold da in Hma.
  assert (0 < da) by (unfold da; lia).
  assert (Hp1 : 0 < 2 ^ (ea - b)) by (apply pow2_pos; lia).
  apply Z.lt_le_trans with (2 ^ da * 2 ^ (ea - b)).
  - apply Z.mul_lt_mono_pos_r; assumption.
  - rewrite <- pow2_split by lia. apply pow2_le. lia.
Qed.

Lemma digits_lower : 2 ^ (d - 1 + e - b) <= Zpos p * 2 ^ (e - b).
Proof.
  pose proof (digits2_pos_bounds p) as [Hp _]. fold d in Hp.
  assert (0 < d) by (unfold d; lia).
  replace (d - 1 + e - b) with ((d - 1) + (e - b)) by lia.
  rewrite pow2_split by lia.
  apply Z.mul_le_mono_nonneg_r; [|exact Hp].
  apply Z.lt_le_incl, pow2_pos. lia.
Qed.

(** A canonical value at or above [p * 2^e] has at least the exponent
    that [p * 2^e] is rounded at. *)
Lemma exponent_le :
  Zpos p * 2 ^ (e - b) <= Zpos ma * 2 ^ (ea - b) -> f <= ea.
Proof.
  intros Hle. destruct (Z_lt_le_dec ea f) as [Hlt|]; [|assumption].
  destruct (digits_gap Hlt) as [Hg _]. pose proof digits_lower. lia.
Qed.

Lemma floor_lower :
  Zpos ma * 2 ^ (ea - b) <= Zpos p * 2 ^ (e - b) ->
  Zpos ma * 2 ^ (ea - b) <= (Zpos p / 2 ^ n) * 2 ^ (e + n - b).
Proof.
  intros Hle.
  destruct (Z_le_gt_dec f e) as [Hfe|Hfe].
  { replace n with 0 by (unfold n; lia).
    rewrite Z.add_0_r. change (2 ^ 0) with 1. rewrite Z.div_1_r. exact Hle. }
  replace n with (f - e) by (unfold n; lia).
  replace (e + (f - e) - b) with ((f - e) + (e - b)) by lia.
  rewrite pow2_split by lia.
  set (c := 2 ^ (f - e)). set (u := 2 ^ (e - b)) in *.
  assert (Hc : 0 < c) by (apply pow2_pos; lia).
  assert (Hu : 0 < u) by (apply pow2_pos; lia).
  pose proof (Z.mul_div_le (Zpos p) c Hc) as Hq1.
  pose proof (Z.mul_succ_div_gt (Zpos p) c Hc) as Hq2.
  set (q := Zpos p / c) in *.
  destruct (Z_lt_le_dec ea f) as [Hlt|Hge].
  - destruct (digits_gap Hlt) as [Hg Hf].
    apply Z.lt_le_incl. eapply Z.lt_le_trans; [exact Hg|].
    (* 2^(d-1+e-b) = 2^52 * c * u <= q * (c*u) *)
    replace (d - 1 + e - b) with (52 + ((f - e) + (e - b))) by lia.
    rewrite pow2_split by lia. rewrite pow2_split by lia. fold c u.
    assert (H52 : 2 ^ 52 <= q).
    { apply Z.div_le_lower_bound; [exact Hc|].
      pose proof (digits2_pos_bounds p) as [Hp _]. fold d in Hp.
      replace (d - 1) with ((f - e) + 52) in Hp by lia.
      rewrite pow2_split in Hp by lia. fold c in Hp. lia. }
    nia.
  - replace (ea - b) with ((ea - f) + ((f - e) + (e - b))) in * by lia.
    rewrite pow2_split in * by lia. rewrite (pow2_split (f - e)) in * by lia.
    fold c u in Hle |- *.
    set (w := 2 ^ (ea - f)) in *.
    assert (Hw : 0 < w) by (apply pow2_pos; lia).
    assert (H1 : Zpos ma * w * c <= Zpos p) by nia.
    assert (H2 : Zpos ma * w <= q) by nia.
    nia.
Qed.

Lemma ceil_upper :
  Zpos p * 2 ^ (e - b) <= Zpos ma * 2 ^ (ea - b) ->
  (Zpos p / 2 ^ n) * 2 ^ (e + n - b) <= Zpos ma * 2 ^ (ea - b)
  /\ (Zpos p mod 2 ^ n <> 0 ->
      (Zpos p / 2 ^ n + 1) * 2 ^ (e + n - b) <= Zpos ma * 2 ^ (ea - b)).
Proof.
  intros Hle. pose proof (exponent_le Hle) as Hfa.
  destruct (Z_le_gt_dec f e) as [Hfe|Hfe].
  { replace n with 0 by (unfold n; lia).
    rewrite Z.add_0_r. change (2 ^ 0) with 1. rewrite Z.div_1_r, Z.mod_1_r.
    split; [exact Hle|congruence]. }
  replace n with (f - e) by (unfold n; lia).
  replace (e + (f - e) - b) with ((f - e) + (e - b)) by lia.
  rewrite pow2_split by lia.
  set (c := 2 ^ (f - e)). set (u := 2 ^ (e - b)) in *.
  assert (Hc : 0 < c) by (apply pow2_pos; lia).
  assert (Hu : 0 < u) by (apply pow2_pos; lia).
  pose proof (Z.mul_div_le (Zpos p) c Hc) as Hq1.
  pose proof (Z.mul_succ_div_gt (Zpos p) c Hc) as Hq2.
  pose proof (Z.div_mod (Zpos p) c ltac:(lia)) as Hdm.
  pose proof (Z.mod_pos_bound (Zpos p) c Hc) as Hmb.
  set (q := Zpos p / c) in *. set (r := Zpos p mod c) in *.
  replace (ea - b) with ((ea - f) + ((f - e) + (e - b))) in * by lia.
  rewrite pow2_split in * by lia. rewrite (pow2_split (f - e)) in * by lia.
  fold c u in Hle |- *.
  set (w := 2 ^ (ea - f)) in *.
  assert (Hw : 0 < w) by (apply pow2_pos; lia).
  assert (H1 : Zpos p <= Zpos ma * w * c) by nia.
  split.
  - assert (q <= Zpos ma * w) by nia. nia.
  - intros Hr. assert (q + 1 <= Zpos ma * w) by nia. nia.
Qed.

End Floor.

(** Right shifts with the round and sticky bits. *)

Lemma div_pow2_succ : forall m k, 0 <= k -> m / 2 ^ (k + 1) = m / 2 ^ k / 2.
Proof.
  intros m k Hk. rewrite Z.pow_add_r by lia. change (2 ^ 1) with 2.
  rewrite Z.div_div; [reflexivity| |lia].
  pose proof (pow2_pos k Hk). lia.
Qed.

Lemma mod_pow2_succ : forall m k, 0 <= k ->
  m mod 2 ^ (k + 1) = 0 -> m mod 2 ^ k = 0 /\ (m / 2 ^ k) mod 2 = 0.
Proof.
  intros m k Hk H. pose proof (pow2_pos k Hk) as Hp.
  apply Z.mod_divide in H; [|rewrite Z.pow_add_r by lia; lia].
  destruct H as [t Ht]. rewrite Z.pow_add_r in Ht by lia. change (2 ^ 1) with 2 in Ht.
  assert (E : m = (t * 2) * 2 ^ k) by lia.
  split.
  - rewrite E. apply Z.mod_mul. lia.
  - rewrite E. rewrite Z.div_mul by lia. apply Z.mod_mul. lia.
Qed.

Lemma shifted_step : forall m k mrs,
  0 <= m -> 0 <= k -> shifted m k mrs -> shifted m (k + 1) (shr_1 mrs).
Proof.
  intros m k [mm r s] Hm Hk [Hdiv Hex]. cbn [shr_m shr_r shr_s] in *.
  unfold shifted. rewrite (div_pow2_succ m k Hk), <- Hdiv.
  assert (Hmm : 0 <= mm).
  { rewrite Hdiv. apply Z.div_pos; [exact Hm|apply pow2_pos; exact Hk]. }
  assert (Hex' : m mod 2 ^ (k + 1) = 0 -> (r || s = false) /\ mm mod 2 = 0).
  { intros H. destruct (mod_pow2_succ m k Hk H) as [H1 H2].
    destruct (Hex H1) as [-> ->]. rewrite <- Hdiv in H2. auto. }
  destruct mm as [|[q|q|]|q]; cbn [shr_1 shr_m shr_r shr_s]; try lia.
  - split; [reflexivity|]. intros H. destruct (Hex' H) as [-> _]. auto.
  - split; [rewrite Pos2Z.inj_xI; apply Z.div_unique with 1; lia|].
    intros H. destruct (Hex' H) as [_ H2]. rewrite Pos2Z.inj_xI in H2.
    rewrite Z.add_comm, Z.mul_comm, Z.mod_add in H2 by lia. discriminate H2.
  - split; [rewrite Pos2Z.inj_xO; apply Z.div_unique with 0; lia|].
    intros H. destruct (Hex' H) as [-> _]. auto.
  - split; [reflexivity|].
    intros H. destruct (Hex' H) as [_ H2]. discriminate H2.
Qed.

Lemma shifted_iter : forall p m k mrs,
  0 <= m -> 0 <= k -> shifted m k mrs ->
  shifted m (k + Zpos p) (iter_pos shr_1 p mrs).
Proof.
  induction p as [p IH|p IH|]; intros m k mrs Hm Hk Hs; cbn [iter_pos].
  - replace (k + Zpos p~1) with (k + 1 + Zpos p + Zpos p) by lia.
    apply IH; [assumption|lia|]. apply IH; [assumption|lia|].
    apply shifted_step; assumption.
  - replace (k + Zpos p~0) with (k + Zpos p + Zpos p) by lia.
    apply IH; [assumption|lia|]. apply IH; assumption.
  - apply shifted_step; assumption.
Qed.

Lemma shr_fexp_spec : forall m e,
  0 <= m ->
  let n := Z.max 0 (SpecFloat.fexp prec emax (Zdigits2 m + e) - e) in
  exists mrs,
    shr_fexp prec emax m e loc_Exact = (mrs, e + n)
    /\ shr_m mrs = m / 2 ^ n
    /\ (m mod 2 ^ n = 0 -> loc_of_shr_record mrs = loc_Exact).
Proof.
  intros m e Hm n. unfold shr_fexp, shr. cbn [shr_record_of_loc].
  fold (SpecFloat.fexp prec emax (Zdigits2 m + e) - e).
  subst n.
  destruct (SpecFloat.fexp prec emax (Zdigits2 m + e) - e) as [|p|p] eqn:E.
  - eexists. split; [rewrite Z.add_0_r; reflexivity|]. cbn [shr_m Z.max].
    change (Z.max 0 0) with 0. change (2 ^ 0) with 1.
    rewrite Z.div_1_r. auto.
  - pose proof (@shifted_iter p m 0 (Build_shr_record m false false) Hm
                  (Z.le_refl 0)) as Hs.
    destruct Hs as [H1 H2].
    { split; cbn [shr_m shr_r shr_s]; [change (2 ^ 0) with 1; rewrite Z.div_1_r; reflexivity|auto]. }
    eexists. split; [reflexivity|].
    replace (Z.max 0 (Zpos p)) with (0 + Zpos p) by lia.
    split; [exact H1|].
    intros H. destruct (H2 H) as [Hr Hs].
    destruct (iter_pos shr_1 p _) as [mm r s]. cbn in Hr, Hs. subst. reflexivity.
  - eexists. split; [rewrite Z.add_0_r; reflexivity|]. cbn [shr_m].
    replace (Z.max 0 (Zneg p)) with 0 by lia. change (2 ^ 0) with 1.
    rewrite Z.div_1_r. auto.
Qed.

Lemma round_nearest_even_bounds : forall m l,
  m <= round_nearest_even m l <= m + 1
  /\ (l = loc_Exact -> round_nearest_even m l = m).
Proof.
  intros m [|[| |]]; cbn [round_nearest_even]; try destruct (Z.even m); split; try lia; auto; discriminate.
Qed.

Lemma rebase : forall x y a c b b',
  b <= a -> b <= c -> b' <= a -> b' <= c ->
  x * 2 ^ (a - b) <= y * 2 ^ (c - b) ->
  x * 2 ^ (a - b') <= y * 2 ^ (c - b').
Proof.
  intros x y a c b b' H1 H2 H3 H4 H.
  set (lo := Z.min a c).
  replace (a - b) with ((a - lo) + (lo - b)) in H by lia.
  replace (c - b) with ((c - lo) + (lo - b)) in H by lia.
  replace (a - b') with ((a - lo) + (lo - b')) by lia.
  replace (c - b') with ((c - lo) + (lo - b')) by lia.
  rewrite !pow2_split in * by (unfold lo; lia).
  assert (0 < 2 ^ (lo - b)) by (apply pow2_pos; unfold lo; lia).
  assert (0 < 2 ^ (lo - b')) by (apply pow2_pos; unfold lo; lia).
  set (A := 2 ^ (a - lo)) in *. set (B := 2 ^ (c - lo)) in *.
  set (t := 2 ^ (lo - b)) in *. set (t' := 2 ^ (lo - b')) in *.
  assert (x * A <= y * B) by nia. nia.
Qed.

Lemma bounded_below_huge : forall ma ea,
  bounded prec emax ma ea = true -> Zpos ma * 2 ^ (ea - emin64) < huge.
Proof.
  intros ma ea Hb. destruct (bounded_spec ma ea Hb) as [Hc He].
  pose proof (digits2_pos_bounds ma) as [_ Hm].
  assert (Hd : Zpos (digits2_pos ma) <= 53) by lia.
  assert (Hea : -1074 <= ea) by lia.
  unfold emin64, huge.
  assert (0 < 2 ^ (ea - -1074)) by (apply pow2_pos; lia).
  apply Z.lt_le_trans with (2 ^ 53 * 2 ^ (ea - -1074)).
  - apply Z.mul_lt_mono_pos_r; [assumption|].
    eapply Z.lt_le_trans; [exact Hm|]. apply pow2_le. lia.
  - rewrite <- pow2_split by lia. apply pow2_le. lia.
Qed.

Section RoundAux.

Variables (sx : bool) (p : positive) (e : Z).

Let d := Zpos (digits2_pos p).
Let f := Z.max (d + e - 53) (-1074).
Let n := Z.max 0 (f - e).
Let r := binary_round_aux prec emax sx (Zpos p) e loc_Exact.

(** The two shifts of [binary_round_aux], as integers. *)
Lemma round_aux_unfold :
  exists m2 n' : Z,
    Zpos p / 2 ^ n <= m2 <= Zpos p / 2 ^ n + 1
    /\ (Zpos p mod 2 ^ n = 0 -> m2 = Zpos p / 2 ^ n)
    /\ n' = Z.max 0 (SpecFloat.fexp prec emax (Zdigits2 m2 + (e + n)) - (e + n))
    /\ r = match m2 / 2 ^ n' with
           | Z0 => S754_zero sx
           | Zpos m => if e + n + n' <=? 971 then S754_finite sx m (e + n + n')
                       else S754_infinity sx
           | Zneg _ => S754_nan
           end.
Proof.
  unfold r, binary_round_aux.
  destruct (shr_fexp_spec (Zpos p) e ltac:(lia)) as (mrs1 & E1 & M1 & X1).
  change (Zdigits2 (Zpos p)) with d in *. rewrite fexp_eq in *. fold f n in E1, M1, X1.
  rewrite E1.
  pose proof (round_nearest_even_bounds (shr_m mrs1) (loc_of_shr_record mrs1))
    as [B1 B2].
  set (m2 := round_nearest_even (shr_m mrs1) (loc_of_shr_record mrs1)) in *.
  assert (H0 : 0 <= Zpos p / 2 ^ n).
  { apply Z.div_pos; [lia|apply pow2_pos; unfold n; lia]. }
  destruct (shr_fexp_spec m2 (e + n) ltac:(lia)) as (mrs2 & E2 & M2 & _).
  rewrite E2.
  exists m2, (Z.max 0 (SpecFloat.fexp prec emax (Zdigits2 m2 + (e + n)) - (e + n))).
  split; [lia|]. split; [intros H; rewrite <- M1; apply B2, X1, H|].
  split; [reflexivity|].
  rewrite M2. reflexivity.
Qed.

Lemma round_aux_signed : SFsigned sx r.
Proof.
  destruct round_aux_unfold as (m2 & n' & B & _ & Hn' & ->).
  assert (0 <= m2 / 2 ^ n').
  { apply Z.div_pos; [|apply pow2_pos; lia].
    assert (0 <= Zpos p / 2 ^ n)
      by (apply Z.div_pos; [lia|apply pow2_pos; unfold n; lia]).
    lia. }
  destruct (m2 / 2 ^ n') as [|m|m]; [reflexivity| |lia].
  destruct (e + n + n' <=? 971); reflexivity.
Qed.

Section AuxBound.

Variables (ma : positive) (ea b : Z).
Hypothesis Hb : bounded prec emax ma ea = true.
Hypothesis Hbe : b <= e.
Hypothesis Hba : b <= ea.

Lemma round_aux_lower :
  Zpos ma * 2 ^ (ea - b) <= Zpos p * 2 ^ (e - b) ->
  Zpos ma * 2 ^ (ea - emin64) <= SFmag r.
Proof.
  intros Hle. destruct (bounded_spec ma ea Hb) as [Hc He].
  destruct round_aux_unfold as (m2 & n' & B & _ & Hn' & ->).
  pose proof (floor_lower p ma e ea b Hc Hbe Hba Hle) as H1.
  fold d f n in H1.
  assert (Hn : 0 <= n) by (unfold n; lia).
  assert (Hu : 0 < 2 ^ (e + n - b)) by (apply pow2_pos; lia).
  assert (H2 : Zpos ma * 2 ^ (ea - b) <= m2 * 2 ^ (e + n - b)) by nia.
  assert (Hm2 : 0 < m2).
  { assert (0 < Zpos ma * 2 ^ (ea - b)).
    { apply Z.mul_pos_pos; [lia|apply pow2_pos; lia]. }
    nia. }
  destruct m2 as [|p2|p2]; try lia.
  cbn [Zdigits2] in Hn'. rewrite fexp_eq in Hn'.
  pose proof (floor_lower p2 ma (e + n) ea b Hc ltac:(lia) Hba H2) as H3.
  rewrite <- Hn' in H3.
  assert (Hn'0 : 0 <= n') by lia.
  assert (Hm3 : 0 < Zpos p2 / 2 ^ n').
  { assert (0 < Zpos ma * 2 ^ (ea - b)).
    { apply Z.mul_pos_pos; [lia|apply pow2_pos; lia]. }
    assert (0 < 2 ^ (e + n + n' - b)) by (apply pow2_pos; lia).
    assert (0 <= Zpos p2 / 2 ^ n') by (apply Z.div_pos; [lia|apply pow2_pos; lia]).
    nia. }
  destruct (Zpos p2 / 2 ^ n') as [|m3|m3] eqn:E3; try lia.
  destruct (e + n + n' <=? 971) eqn:Hov; cbn [SFmag].
  - apply (rebase (Zpos ma) (Zpos m3) ea (e + n + n') b emin64); try assumption;
      unfold emin64; lia.
  - apply Z.lt_le_incl, bounded_below_huge, Hb.
Qed.

Lemma round_aux_upper :
  e <= f ->
  Zpos p * 2 ^ (e - b) <= Zpos ma * 2 ^ (ea - b) ->
  SFmag r <= Zpos ma * 2 ^ (ea - emin64).
Proof.
  intros Hpre Hle. destruct (bounded_spec ma ea Hb) as [Hc He].
  destruct round_aux_unfold as (m2 & n' & B & Bex & Hn' & ->).
  pose proof (ceil_upper p ma e ea b Hc Hbe Hba Hle) as [H1 H1'].
  pose proof (exponent_le p ma e ea b Hc Hbe Hba Hle) as He1.
  fold d f n in H1, H1', He1.
  assert (Hn : n = f - e) by (unfold n; lia).
  assert (Hu : 0 < 2 ^ (e + n - b)) by (apply pow2_pos; lia).
  assert (H2 : m2 * 2 ^ (e + n - b) <= Zpos ma * 2 ^ (ea - b)).
  { destruct (Z.eq_dec (Zpos p mod 2 ^ n) 0) as [Hz|Hnz].
    - rewrite (Bex Hz). exact H1.
    - specialize (H1' Hnz). nia. }
  assert (Hn'0 : 0 <= n') by lia.
  assert (Hq : 0 < 2 ^ n') by (apply pow2_pos; lia).
  assert (Hm20 : 0 <= m2).
  { assert (0 <= Zpos p / 2 ^ n)
      by (apply Z.div_pos; [lia|apply pow2_pos; lia]). lia. }
  pose proof (Z.mul_div_le m2 (2 ^ n') Hq) as Hfl.
  assert (H3 : (m2 / 2 ^ n') * 2 ^ (e + n + n' - b) <= Zpos ma * 2 ^ (ea - b)).
  { replace (e + n + n' - b) with (n' + (e + n - b)) by lia.
    rewrite pow2_split by lia.
    assert (0 <= m2 / 2 ^ n') by (apply Z.div_pos; lia). nia. }
  destruct (m2 / 2 ^ n') as [|m3|m3] eqn:E3.
  - cbn [SFmag]. apply Z.mul_nonneg_nonneg; [lia|].
    apply Z.lt_le_incl, pow2_pos. unfold emin64. lia.
  - assert (Hm2 : 0 < m2).
    { destruct (Z.eq_dec m2 0) as [->|]; [|lia]. rewrite Z.div_0_l in E3; lia. }
    destruct m2 as [|p2|p2]; try lia.
    cbn [Zdigits2] in Hn'. rewrite fexp_eq in Hn'.
    pose proof (exponent_le p2 ma (e + n) ea b Hc ltac:(lia) Hba H2) as He2.
    assert (Hfin : e + n + n' <= ea) by lia.
    replace (e + n + n' <=? 971) with true by (symmetry; apply Z.leb_le; lia).
    cbn [SFmag].
    apply (rebase (Zpos m3) (Zpos ma) (e + n + n') ea b emin64); try assumption;
      unfold emin64; lia.
  - assert (0 <= Zneg m3); [|lia]. rewrite <- E3. apply Z.div_pos; lia.
Qed.

End AuxBound.

End RoundAux.

Lemma iter_xO : forall d p, Zpos (Pos.iter xO p d) = Zpos p * 2 ^ Zpos d.
Proof.
  intros d p. induction d as [|d IH] using Pos.peano_ind.
  - cbn [Pos.iter]. rewrite Pos2Z.inj_xO. change (2 ^ 1) with 2. lia.
  - rewrite Pos.iter_succ, Pos2Z.inj_xO, IH, Pos2Z.inj_succ, Z.pow_succ_r by lia.
    lia.
Qed.

Lemma digits_iter_xO : forall d p,
  Zpos (digits2_pos (Pos.iter xO p d)) = Zpos (digits2_pos p) + Zpos d.
Proof.
  intros d p. induction d as [|d IH] using Pos.peano_ind.
  - cbn [Pos.iter digits2_pos]. lia.
  - rewrite Pos.iter_succ. cbn [digits2_pos]. rewrite Pos2Z.inj_succ, IH. lia.
Qed.

Lemma shl_align_spec : forall mx ex ez,
  snd (shl_align mx ex ez) = Z.min ex ez
  /\ Zpos (fst (shl_align mx ex ez)) = Zpos mx * 2 ^ (ex - Z.min ex ez)
  /\ Zpos (digits2_pos (fst (shl_align mx ex ez)))
     = Zpos (digits2_pos mx) + (ex - Z.min ex ez).
Proof.
  intros mx ex ez. unfold shl_align.
  destruct (ez - ex) as [|d|d] eqn:E; cbn [fst snd].
  - replace (Z.min ex ez) with ex by lia. rewrite Z.sub_diag. cbn. lia.
  - replace (Z.min ex ez) with ex by lia. rewrite Z.sub_diag. cbn. lia.
  - replace (Z.min ex ez) with ez by lia.
    replace (ex - ez) with (Zpos d) by lia.
    rewrite iter_xO, digits_iter_xO. auto.
Qed.

Lemma SFmag_nonneg : forall r, 0 <= SFmag r.
Proof.
  intros [s|s| |s m e]; cbn [SFmag]; [lia| |lia|].
  - unfold huge. apply Z.lt_le_incl, pow2_pos. lia.
  - destruct (Z_le_gt_dec 0 (e - emin64)).
    + pose proof (pow2_pos (e - emin64) ltac:(lia)). nia.
    + rewrite Z.pow_neg_r by lia. lia.
Qed.

Lemma SFord_signed : forall s r, SFsigned s r ->
  SFord r = if s then - SFmag r else SFmag r.
Proof.
  intros s [s'|s'| |s' m e]; cbn [SFsigned SFmag SFord]; intros H; subst;
    try reflexivity; try contradiction.
  destruct s; reflexivity.
Qed.

Lemma SFsigned_number : forall s r, SFsigned s r -> r <> S754_nan.
Proof. intros s r H E. subst r. exact H. Qed.

Section Round.

Variables (sx : bool) (p : positive) (e : Z).
Hypothesis He : emin64 <= e.

Let r := binary_round prec emax sx p e.

Lemma round_as_aux :
  exists mz ez,
    r = binary_round_aux prec emax sx (Zpos mz) ez loc_Exact
    /\ emin64 <= ez <= e
    /\ Zpos mz = Zpos p * 2 ^ (e - ez)
    /\ ez <= Z.max (Zpos (digits2_pos mz) + ez - 53) (-1074).
Proof.
  unfold r, binary_round. rewrite fexp_eq.
  set (f := Z.max (Zpos (digits2_pos p) + e - 53) (-1074)).
  destruct (shl_align_spec p e f) as (H1 & H2 & H3).
  destruct (shl_align p e f) as [mz ez]. cbn [fst snd] in *.
  exists mz, ez. split; [reflexivity|].
  unfold emin64 in *. subst ez.
  split; [unfold f; lia|]. split; [exact H2|].
  rewrite H3. unfold f. lia.
Qed.

Lemma round_signed : SFsigned sx r.
Proof.
  destruct round_as_aux as (mz & ez & -> & _). apply round_aux_signed.
Qed.

Section RoundBound.

Variables (ma : positive) (ea : Z).
Hypothesis Hb : bounded prec emax ma ea = true.

Lemma round_lower :
  Zpos ma * 2 ^ (ea - emin64) <= Zpos p * 2 ^ (e - emin64) ->
  Zpos ma * 2 ^ (ea - emin64) <= SFmag r.
Proof.
  intros Hle. destruct round_as_aux as (mz & ez & -> & Hez & Hmz & _).
  destruct (bounded_spec ma ea Hb) as [Hc _].
  apply (round_aux_lower sx mz ez ma ea emin64 Hb); try (unfold emin64 in *; lia).
  rewrite Hmz. rewrite <- Z.mul_assoc, <- pow2_split by lia.
  replace (e - ez + (ez - emin64)) with (e - emin64) by lia. exact Hle.
Qed.

Lemma round_upper :
  Zpos p * 2 ^ (e - emin64) <= Zpos ma * 2 ^ (ea - emin64) ->
  SFmag r <= Zpos ma * 2 ^ (ea - emin64).
Proof.
  intros Hle. destruct round_as_aux as (mz & ez & -> & Hez & Hmz & Hpre).
  destruct (bounded_spec ma ea Hb) as [Hc _].
  apply (round_aux_upper sx mz ez ma ea emin64 Hb); try (unfold emin64 in *; lia).
  rewrite Hmz. rewrite <- Z.mul_assoc, <- pow2_split by lia.
  replace (e - ez + (ez - emin64)) with (e - emin64) by lia. exact Hle.
Qed.

End RoundBound.

End Round.

(** Rounding an integer multiple of [2^ez] is monotone against any
    representable number. *)
Section Normalize.

Variables (sa : bool) (ma : positive) (ea : Z) (M ez : Z).
Hypothesis Hb : bounded prec emax ma ea = true.
Hypothesis Hez : emin64 <= ez.

Let a := S754_finite sa ma ea.
Let r := binary_normalize prec emax M ez false.

Lemma normalize_number : r <> S754_nan.
Proof.
  unfold r, binary_normalize. destruct M as [|q|q]; [discriminate| |];
    eapply SFsigned_number, round_signed; exact Hez.
Qed.

Lemma normalize_ge : SFord a <= M * 2 ^ (ez - emin64) -> SFord a <= SFord r.
Proof.
  intros Hle. unfold r, binary_normalize, a in *. cbn [SFord] in *.
  assert (Hu : 0 < 2 ^ (ez - emin64)) by (apply pow2_pos; lia).
  assert (Hma : 0 < Zpos ma * 2 ^ (ea - emin64)).
  { destruct (bounded_spec ma ea Hb). apply Z.mul_pos_pos; [lia|].
    apply pow2_pos. unfold emin64. lia. }
  destruct M as [|q|q].
  - cbn [SFord]. destruct sa; nia.
  - rewrite (SFord_signed false _ (round_signed false q ez Hez)).
    pose proof (SFmag_nonneg (binary_round prec emax false q ez)).
    destruct sa; [lia|].
    apply (round_lower false q ez Hez ma ea Hb). exact Hle.
  - rewrite (SFord_signed true _ (round_signed true q ez Hez)).
    destruct sa; [|nia].
    pose proof (round_upper true q ez Hez ma ea Hb) as H.
    assert (Zpos q * 2 ^ (ez - emin64) <= Zpos ma * 2 ^ (ea - emin64)) by lia.
    specialize (H ltac:(assumption)). lia.
Qed.

Lemma normalize_le : M * 2 ^ (ez - emin64) <= SFord a -> SFord r <= SFord a.
Proof.
  intros Hle. unfold r, binary_normalize, a in *. cbn [SFord] in *.
  assert (Hu : 0 < 2 ^ (ez - emin64)) by (apply pow2_pos; lia).
  assert (Hma : 0 < Zpos ma * 2 ^ (ea - emin64)).
  { destruct (bounded_spec ma ea Hb). apply Z.mul_pos_pos; [lia|].
    apply pow2_pos. unfold emin64. lia. }
  destruct M as [|q|q].
  - cbn [SFord]. destruct sa; nia.
  - rewrite (SFord_signed false _ (round_signed false q ez Hez)).
    destruct sa; [nia|].
    apply (round_upper false q ez Hez ma ea Hb). exact Hle.
  - rewrite (SFord_signed true _ (round_signed true q ez Hez)).
    pose proof (SFmag_nonneg (binary_round prec emax true q ez)) as Hm.
    destruct sa; [|lia].
    pose proof (round_lower true q ez Hez ma ea Hb) as H.
    assert (Zpos ma * 2 ^ (ea - emin64) <= Zpos q * 2 ^ (ez - emin64)) by lia.
    specialize (H ltac:(assumption)). lia.
Qed.

End Normalize.

Lemma bounded_pos : forall m e, bounded prec emax m e = true ->
  emin64 <= e /\ 0 < 2 ^ (e - emin64) /\ 0 < Zpos m * 2 ^ (e - emin64).
Proof.
  intros m e Hb. destruct (bounded_spec m e Hb) as [Hc _].
  assert (He : emin64 <= e) by (unfold emin64; lia).
  assert (Hp : 0 < 2 ^ (e - emin64)) by (apply pow2_pos; lia).
  repeat split; [exact He|exact Hp|]. apply Z.mul_pos_pos; [lia|exact Hp].
Qed.

(** Of two canonical numbers the one with the smaller exponent is the
    smaller. *)
Lemma canonical_lt : forall m1 e1 m2 e2,
  bounded prec emax m1 e1 = true -> bounded prec emax m2 e2 = true ->
  e1 < e2 -> Zpos m1 * 2 ^ (e1 - emin64) < Zpos m2 * 2 ^ (e2 - emin64).
Proof.
  intros m1 e1 m2 e2 H1 H2 Hlt.
  destruct (bounded_spec m1 e1 H1) as [Hc1 _].
  destruct (bounded_spec m2 e2 H2) as [Hc2 _].
  destruct (bounded_pos m1 e1 H1) as (He1 & Hp1 & _).
  pose proof (digits2_pos_bounds m1) as [_ Hm1].
  pose proof (digits2_pos_bounds m2) as [Hm2 _].
  assert (Hd2 : Zpos (digits2_pos m2) = 53) by (unfold emin64 in *; lia).
  assert (Hd1 : Zpos (digits2_pos m1) <= 53) by lia.
  rewrite Hd2 in Hm2. change (53 - 1) with 52 in Hm2.
  assert (Hm1' : Zpos m1 < 2 ^ 53).
  { eapply Z.lt_le_trans; [exact Hm1|]. apply pow2_le. lia. }
  replace (e2 - emin64) with ((e2 - e1 - 1) + 1 + (e1 - emin64)) by lia.
  rewrite !pow2_split by lia. change (2 ^ 1) with 2.
  assert (Hk : 0 < 2 ^ (e2 - e1 - 1)) by (apply pow2_pos; lia).
  change (2 ^ 53) with (2 * 2 ^ 52) in Hm1'.
  set (k := 2 ^ (e2 - e1 - 1)) in *. set (u := 2 ^ (e1 - emin64)) in *.
  set (c := 2 ^ 52) in *.
  assert (Zpos m1 < Zpos m2 * (k * 2)) by nia.
  nia.
Qed.

Lemma SFcompare_ord : forall x y, SFnumber x -> SFnumber y ->
  SFcompare x y = Some (SFord x ?= SFord y).
Proof.
  intros x y [Vx Nx] [Vy Ny].
  assert (HB : 0 < huge) by (unfold huge; apply pow2_pos; lia).
  destruct x as [sx|sx| |sx mx ex]; [| |congruence|];
    destruct y as [sy|sy| |sy my ey]; try congruence;
    cbn [SFcompare SFord valid_binary] in *; f_equal; symmetry.
  - destruct sy; [apply Z.compare_gt_iff|apply Z.compare_lt_iff]; lia.
  - destruct (bounded_pos my ey Vy) as (_ & _ & H).
    destruct sy; [apply Z.compare_gt_iff|apply Z.compare_lt_iff]; lia.
  - destruct sx; [apply Z.compare_lt_iff|apply Z.compare_gt_iff]; lia.
  - destruct sx, sy;
      [apply Z.compare_eq_iff|apply Z.compare_lt_iff|apply Z.compare_gt_iff
      |apply Z.compare_eq_iff]; lia.
  - pose proof (bounded_below_huge my ey Vy).
    destruct (bounded_pos my ey Vy) as (_ & _ & H').
    destruct sx, sy; [apply Z.compare_lt_iff|apply Z.compare_lt_iff
                     |apply Z.compare_gt_iff|apply Z.compare_gt_iff]; lia.
  - destruct (bounded_pos mx ex Vx) as (_ & _ & H).
    destruct sx; [apply Z.compare_lt_iff|apply Z.compare_gt_iff]; lia.
  - pose proof (bounded_below_huge mx ex Vx).
    destruct (bounded_pos mx ex Vx) as (_ & _ & H').
    destruct sx, sy; [apply Z.compare_gt_iff|apply Z.compare_lt_iff
                     |apply Z.compare_gt_iff|apply Z.compare_lt_iff]; lia.
  - destruct (bounded_pos mx ex Vx) as (_ & Hux & Hx).
    destruct (bounded_pos my ey Vy) as (_ & Huy & Hy).
    assert (Hcases : (ex < ey /\ Zpos mx * 2 ^ (ex - emin64) < Zpos my * 2 ^ (ey - emin64))
                  \/ (ey < ex /\ Zpos my * 2 ^ (ey - emin64) < Zpos mx * 2 ^ (ex - emin64))
                  \/ ex = ey).
    { destruct (Z.lt_trichotomy ex ey) as [L|[L|L]].
      - left. split; [exact L|]. apply canonical_lt; assumption.
      - right. right. exact L.
      - right. left. split; [exact L|]. apply canonical_lt; assumption. }
    change (Pos.compare_cont Eq mx my) with (Pos.compare mx my).
    destruct sx, sy.
    + destruct Hcases as [[L V]|[[L V]|L]].
      * apply Z.compare_lt_iff in L. rewrite L. apply Z.compare_gt_iff. lia.
      * apply Z.compare_gt_iff in L. rewrite L. apply Z.compare_lt_iff. lia.
      * subst ey. rewrite Z.compare_refl.
        destruct (Pos.compare_spec mx my) as [E|E|E]; cbn [CompOpp].
        -- subst. apply Z.compare_eq_iff. reflexivity.
        -- apply Z.compare_gt_iff. nia.
        -- apply Z.compare_lt_iff. nia.
    + apply Z.compare_lt_iff. lia.
    + apply Z.compare_gt_iff. lia.
    + destruct Hcases as [[L V]|[[L V]|L]].
      * apply Z.compare_lt_iff in L. rewrite L. apply Z.compare_lt_iff. lia.
      * apply Z.compare_gt_iff in L. rewrite L. apply Z.compare_gt_iff. lia.
      * subst ey. rewrite Z.compare_refl.
        destruct (Pos.compare_spec mx my) as [E|E|E].
        -- subst. apply Z.compare_eq_iff. reflexivity.
        -- apply Z.compare_lt_iff. nia.
        -- apply Z.compare_gt_iff. nia.
Qed.

Lemma nan_dec : forall x : spec_float, {x = S754_nan} + {x <> S754_nan}.
Proof. intros [s|s| |s m e]; (left; reflexivity) || (right; discriminate). Qed.

Lemma SFcompare_nan_r : forall x, SFcompare x S754_nan = None.
Proof. intros [s|s| |s m e]; reflexivity. Qed.

Lemma SFleb_ord : forall x y,
  valid_binary x = true -> valid_binary y = true ->
  (SFleb x y = true <-> x <> S754_nan /\ y <> S754_nan /\ SFord x <= SFord y).
Proof.
  intros x y Vx Vy. unfold SFleb.
  destruct (nan_dec x) as [->|Nx].
  { cbn. split; [discriminate|intros (H & _); congruence]. }
  destruct (nan_dec y) as [->|Ny].
  { rewrite SFcompare_nan_r. split; [discriminate|intros (_ & H & _); congruence]. }
  rewrite SFcompare_ord by (split; assumption).
  destruct (Z.compare_spec (SFord x) (SFord y)) as [H|H|H].
  - split; [intros _; repeat split; try assumption; lia|reflexivity].
  - split; [intros _; repeat split; try assumption; lia|reflexivity].
  - split; [discriminate|intros (_ & _ & T); lia].
Qed.

Lemma SFltb_ord : forall x y,
  valid_binary x = true -> valid_binary y = true ->
  (SFltb x y = true <-> x <> S754_nan /\ y <> S754_nan /\ SFord x < SFord y).
Proof.
  intros x y Vx Vy. unfold SFltb.
  destruct (nan_dec x) as [->|Nx].
  { cbn. split; [discriminate|intros (H & _); congruence]. }
  destruct (nan_dec y) as [->|Ny].
  { rewrite SFcompare_nan_r. split; [discriminate|intros (_ & H & _); congruence]. }
  rewrite SFcompare_ord by (split; assumption).
  destruct (Z.compare_spec (SFord x) (SFord y)) as [H|H|H].
  - split; [discriminate|intros (_ & _ & T); lia].
  - split; [intros _; repeat split; try assumption; lia|reflexivity].
  - split; [discriminate|intros (_ & _ & T); lia].
Qed.

(** ** Sums and differences *)

Lemma SFord_aligned : forall s m e ez, emin64 <= ez -> ez <= e ->
  SFord (S754_finite s m e)
  = cond_Zopp s (Zpos (fst (shl_align m e ez))) * 2 ^ (ez - emin64).
Proof.
  intros s m e ez H1 H2. destruct (shl_align_spec m e ez) as (_ & -> & _).
  replace (Z.min e ez) with ez by lia.
  cbn [SFord]. replace (e - emin64) with ((e - ez) + (ez - emin64)) by lia.
  rewrite pow2_split by lia. destruct s; cbn [cond_Zopp]; lia.
Qed.

(** Adding a positive number never lowers, subtracting one never raises. *)
Lemma SFadd_increase : forall x my ey,
  SFnumber x -> bounded prec emax my ey = true ->
  SFadd prec emax x (S754_finite false my ey) <> S754_nan
  /\ SFord x <= SFord (SFadd prec emax x (S754_finite false my ey)).
Proof.
  intros x my ey [Vx Nx] Vy.
  destruct (bounded_pos my ey Vy) as (Hey & Huy & Hy).
  destruct x as [sx|sx| |sx mx ex]; [| |congruence|]; cbn [SFadd].
  - split; [discriminate|]. cbn [SFord]. lia.
  - split; [discriminate|]. lia.
  - cbn [valid_binary] in Vx.
    destruct (bounded_pos mx ex Vx) as (Hex & Hux & Hx).
    set (ez := Z.min ex ey).
    assert (Hez : emin64 <= ez) by (unfold ez; lia).
    split; [apply normalize_number; exact Hez|].
    apply (normalize_ge sx mx ex _ ez Vx Hez).
    rewrite (SFord_aligned sx mx ex ez Hez ltac:(unfold ez; lia)).
    pose proof (SFord_aligned false my ey ez Hez ltac:(unfold ez; lia)) as Ey.
    cbn [SFord] in Ey. rewrite Z.mul_add_distr_r, <- Ey. lia.
Qed.

Lemma SFsub_decrease : forall x my ey,
  SFnumber x -> bounded prec emax my ey = true ->
  SFsub prec emax x (S754_finite false my ey) <> S754_nan
  /\ SFord (SFsub prec emax x (S754_finite false my ey)) <= SFord x.
Proof.
  intros x my ey [Vx Nx] Vy.
  destruct (bounded_pos my ey Vy) as (Hey & Huy & Hy).
  destruct x as [sx|sx| |sx mx ex]; [| |congruence|]; cbn [SFsub].
  - split; [discriminate|]. cbn [SFord negb]. lia.
  - split; [discriminate|]. lia.
  - cbn [valid_binary] in Vx.
    destruct (bounded_pos mx ex Vx) as (Hex & Hux & Hx).
    set (ez := Z.min ex ey).
    assert (Hez : emin64 <= ez) by (unfold ez; lia).
    split; [apply normalize_number; exact Hez|].
    apply (normalize_le sx mx ex _ ez Vx Hez).
    rewrite (SFord_aligned sx mx ex ez Hez ltac:(unfold ez; lia)).
    pose proof (SFord_aligned false my ey ez Hez ltac:(unfold ez; lia)) as Ey.
    cbn [SFord] in Ey. rewrite Z.mul_sub_distr_r, <- Ey. lia.
Qed.

(** ** Products with a positive normal number *)

Lemma digits_mul_normal : forall mx my,
  Zpos (digits2_pos my) = 53 -> 53 <= Zpos (digits2_pos (mx * my)).
Proof.
  intros mx my Hd.
  pose proof (digits2_pos_bounds my) as [Hy _]. rewrite Hd in Hy.
  pose proof (digits2_pos_bounds (mx * my)) as [_ Hxy].
  rewrite Pos2Z.inj_mul in Hxy.
  assert (H : 2 ^ (53 - 1) < 2 ^ Zpos (digits2_pos (mx * my))) by nia.
  apply Z.pow_lt_mono_r_iff in H; lia.
Qed.

Lemma SFmul_upper : forall sx mx ex my ey ma ea,
  bounded prec emax mx ex = true ->
  Zpos (digits2_pos my) = 53 -> ey <= 0 ->
  bounded prec emax ma ea = true ->
  Zpos mx * 2 ^ (ex - emin64) * Zpos my <= Zpos ma * 2 ^ (ea - emin64) * 2 ^ (- ey) ->
  SFsigned sx (SFmul prec emax (S754_finite sx mx ex) (S754_finite false my ey))
  /\ SFmag (SFmul prec emax (S754_finite sx mx ex) (S754_finite false my ey))
     <= Zpos ma * 2 ^ (ea - emin64).
Proof.
  intros sx mx ex my ey ma ea Vx Hd Hey Va Hle. cbn [SFmul].
  rewrite xorb_false_r.
  destruct (bounded_pos mx ex Vx) as (Hex & _ & _).
  destruct (bounded_pos ma ea Va) as (Hea & _ & _).
  split; [apply round_aux_signed|].
  apply (round_aux_upper sx (mx * my) (ex + ey) ma ea (emin64 + ey) Va); try lia.
  - pose proof (digits_mul_normal mx my Hd). lia.
  - rewrite Pos2Z.inj_mul.
    replace (ex + ey - (emin64 + ey)) with (ex - emin64) by lia.
    replace (ea - (emin64 + ey)) with ((ea - emin64) + (- ey)) by lia.
    rewrite pow2_split by lia. lia.
Qed.

(** ** Sign changes *)

Lemma SFord_opp : forall x, SFord (SFopp x) = - SFord x.
Proof.
  intros [s|s| |s m e]; cbn [SFopp SFord]; try reflexivity;
    destruct s; cbn [negb]; lia.
Qed.

Lemma SFord_abs : forall x, SFord (SFabs x) = Z.abs (SFord x).
Proof.
  intros x. pose proof (SFmag_nonneg x) as H.
  destruct x as [s|s| |s m e]; cbn [SFabs SFord SFmag] in *; try reflexivity;
    destruct s; lia.
Qed.

Lemma SFmag_abs : forall x, SFmag x = Z.abs (SFord x).
Proof.
  intros x. pose proof (SFmag_nonneg x) as H.
  destruct x as [s|s| |s m e]; cbn [SFord SFmag] in *; try reflexivity;
    destruct s; lia.
Qed.

Lemma SFmul_bound : forall x my ey ma ea,
  SFnumber x -> SFmag x < huge ->
  Zpos (digits2_pos my) = 53 -> ey <= 0 ->
  bounded prec emax ma ea = true ->
  SFmag x * Zpos my <= Zpos ma * 2 ^ (ea - emin64) * 2 ^ (- ey) ->
  SFmul prec emax x (S754_finite false my ey) <> S754_nan
  /\ SFmag (SFmul prec emax x (S754_finite false my ey)) <= Zpos ma * 2 ^ (ea - emin64)
  /\ (0 <= SFord x -> 0 <= SFord (SFmul prec emax x (S754_finite false my ey)))
  /\ (SFord x <= 0 -> SFord (SFmul prec emax x (S754_finite false my ey)) <= 0).
Proof.
  intros x my ey ma ea [Vx Nx] Hfin Hd Hey Va Hle.
  destruct (bounded_pos ma ea Va) as (_ & _ & Ha).
  destruct x as [sx|sx| |sx mx ex]; [| |congruence|].
  - cbn [SFmul SFord SFmag]. split; [discriminate|]. lia.
  - cbn [SFmag] in Hfin. lia.
  - cbn [valid_binary] in Vx.
    destruct (bounded_pos mx ex Vx) as (_ & _ & Hx).
    destruct (SFmul_upper sx mx ex my ey ma ea Vx Hd Hey Va Hle) as [Hs Hm].
    pose proof (SFmag_nonneg (SFmul prec emax (S754_finite sx mx ex)
                                  (S754_finite false my ey))) as H0.
    split; [eapply SFsigned_number; exact Hs|]. split; [exact Hm|].
    rewrite (SFord_signed sx _ Hs). cbn [SFord].
    destruct sx; split; lia.
Qed.

Lemma SFmul_shrink : forall x my ey,
  SFnumber x -> Zpos (digits2_pos my) = 53 -> ey <= 0 -> Zpos my <= 2 ^ (- ey) ->
  SFmul prec emax x (S754_finite false my ey) <> S754_nan
  /\ SFmag (SFmul prec emax x (S754_finite false my ey)) <= SFmag x.
Proof.
  intros x my ey [Vx Nx] Hd Hey Hy.
  destruct x as [sx|sx| |sx mx ex]; [| |congruence|].
  - cbn [SFmul SFmag]. split; [discriminate|]. lia.
  - cbn [SFmul SFmag]. split; [discriminate|]. lia.
  - cbn [valid_binary] in Vx.
    destruct (bounded_pos mx ex Vx) as (_ & _ & Hx).
    assert (Hle : Zpos mx * 2 ^ (ex - emin64) * Zpos my
                  <= Zpos mx * 2 ^ (ex - emin64) * 2 ^ (- ey)) by nia.
    destruct (SFmul_upper sx mx ex my ey mx ex Vx Hd Hey Vx Hle) as [Hs Hm].
    split; [eapply SFsigned_number; exact Hs|exact Hm].
Qed.

Lemma one64_pos : 0 < one64.
Proof. unfold one64. apply pow2_pos. lia. Qed.

Lemma float_number : forall x, is_number x -> SFnumber (Prim2SF x).
Proof. intros x H. split; [apply Prim2SF_valid|exact H]. Qed.

Lemma leb_value : forall x y : float,
  PrimFloat.leb x y = true
  <-> is_number x /\ is_number y /\ value x <= value y.
Proof.
  intros x y. rewrite leb_spec. apply SFleb_ord; apply Prim2SF_valid.
Qed.

Lemma ltb_value : forall x y : float,
  PrimFloat.ltb x y = true
  <-> is_number x /\ is_number y /\ value x < value y.
Proof.
  intros x y. rewrite ltb_spec. apply SFltb_ord; apply Prim2SF_valid.
Qed.

Lemma ltb_false_value : forall x y : float,
  is_number x -> is_number y -> PrimFloat.ltb x y = false ->
  value y <= value x.
Proof.
  intros x y Hx Hy H. destruct (Z_le_gt_dec (value y) (value x)) as [|G]; [assumption|].
  assert (T : PrimFloat.ltb x y = true) by (apply ltb_value; repeat split; try assumption; lia).
  congruence.
Qed.

Lemma is_nan_number : forall x : float,
  is_number x -> PrimFloat.is_nan x = false.
Proof.
  intros x Hx. unfold PrimFloat.is_nan. rewrite FloatAxioms.eqb_spec.
  unfold SFeqb. rewrite SFcompare_ord by (apply float_number; exact Hx).
  rewrite Z.compare_refl. reflexivity.
Qed.

Lemma is_nan_false : forall x : float,
  PrimFloat.is_nan x = false -> is_number x.
Proof.
  intros x H E. unfold PrimFloat.is_nan in H. rewrite FloatAxioms.eqb_spec in H.
  rewrite E in H. discriminate H.
Qed.

Lemma positive_finite_inv : forall y, positive_finite y ->
  exists m e, Prim2SF y = S754_finite false m e
              /\ bounded prec emax m e = true.
Proof.
  intros y H. unfold positive_finite in H.
  pose proof (Prim2SF_valid y) as V.
  destruct (Prim2SF y) as [s|s| |[|] m e]; try contradiction.
  exists m, e. split; [reflexivity|exact V].
Qed.

Lemma add_increase : forall x y : float,
  is_number x -> positive_finite y ->
  is_number (x + y) /\ value x <= value (x + y).
Proof.
  intros x y Hx Hy. destruct (positive_finite_inv y Hy) as (m & e & E & B).
  unfold is_number, value. rewrite add_spec, E.
  apply SFadd_increase; [apply float_number; exact Hx|exact B].
Qed.

Lemma sub_decrease : forall x y : float,
  is_number x -> positive_finite y ->
  is_number (x - y) /\ value (x - y) <= value x.
Proof.
  intros x y Hx Hy. destruct (positive_finite_inv y Hy) as (m & e & E & B).
  unfold is_number, value. rewrite sub_spec, E.
  apply SFsub_decrease; [apply float_number; exact Hx|exact B].
Qed.

Lemma opp_value : forall x : float,
  (is_number x -> is_number (- x)) /\ value (- x) = - value x.
Proof.
  intros x. unfold is_number, value. rewrite opp_spec. split.
  - destruct (Prim2SF x); intros H; try discriminate. congruence.
  - apply SFord_opp.
Qed.

Lemma abs_value : forall x : float,
  (is_number x -> is_number (abs x)) /\ value (abs x) = Z.abs (value x).
Proof.
  intros x. unfold is_number, value. rewrite abs_spec. split.
  - destruct (Prim2SF x); intros H; try discriminate. congruence.
  - apply SFord_abs.
Qed.

(** [Math.min] and [Math.max] of two numbers pick one of them. *)
Lemma min_value : forall x y : float,
  is_number x -> is_number y ->
  (Binary64.min x y = x \/ Binary64.min x y = y)
  /\ value (Binary64.min x y) = Z.min (value x) (value y).
Proof.
  intros x y Hx Hy. unfold Binary64.min.
  rewrite (is_nan_number x Hx), (is_nan_number y Hy). cbn [orb].
  destruct (PrimFloat.ltb x y) eqn:Exy.
  { apply ltb_value in Exy. split; [left; reflexivity|lia]. }
  destruct (PrimFloat.ltb y x) eqn:Eyx.
  { apply ltb_value in Eyx. split; [right; reflexivity|lia]. }
  apply ltb_false_value in Exy; [|assumption|assumption].
  apply ltb_false_value in Eyx; [|assumption|assumption].
  destruct (Binary64.is_neg_zero x); (split; [auto|lia]).
Qed.

Lemma max_value : forall x y : float,
  is_number x -> is_number y ->
  (Binary64.max x y = x \/ Binary64.max x y = y)
  /\ value (Binary64.max x y) = Z.max (value x) (value y).
Proof.
  intros x y Hx Hy. unfold Binary64.max.
  rewrite (is_nan_number x Hx), (is_nan_number y Hy). cbn [orb].
  destruct (PrimFloat.ltb y x) eqn:Eyx.
  { apply ltb_value in Eyx. split; [left; reflexivity|lia]. }
  destruct (PrimFloat.ltb x y) eqn:Exy.
  { apply ltb_value in Exy. split; [right; reflexivity|lia]. }
  apply ltb_false_value in Exy; [|assumption|assumption].
  apply ltb_false_value in Eyx; [|assumption|assumption].
  destruct (Binary64.is_neg_zero x); (split; [auto|lia]).
Qed.

Lemma min_number : forall x y : float,
  is_number x -> is_number y -> is_number (Binary64.min x y).
Proof.
  intros x y Hx Hy. destruct (min_value x y Hx Hy) as [[-> | ->] _]; assumption.
Qed.

Lemma max_number : forall x y : float,
  is_number x -> is_number y -> is_number (Binary64.max x y).
Proof.
  intros x y Hx Hy. destruct (max_value x y Hx Hy) as [[-> | ->] _]; assumption.
Qed.

Lemma normal_fraction_inv : forall y, normal_fraction y ->
  exists m e, Prim2SF y = S754_finite false m e
              /\ Zpos (digits2_pos m) = 53 /\ e <= 0 /\ Zpos m <= 2 ^ (- e).
Proof.
  intros y H. unfold normal_fraction in H.
  destruct (Prim2SF y) as [s|s| |[|] m e]; try contradiction.
  exists m, e. split; [reflexivity|exact H].
Qed.

(** A product with a normal number in (0, 1] keeps the sign and does not
    raise the magnitude. *)
Lemma mul_shrink : forall x y : float,
  is_number x -> normal_fraction y ->
  is_number (x * y) /\ Z.abs (value (x * y)) <= Z.abs (value x).
Proof.
  intros x y Hx Hy.
  destruct (normal_fraction_inv y Hy) as (m & e & E & Hd & He & Hm).
  unfold is_number, value. rewrite mul_spec, E, <- !SFmag_abs.
  apply SFmul_shrink; try assumption. apply float_number; exact Hx.
Qed.

(** The product with a normal positive [y = m * 2^e] stays within a
    representable bound [a] whenever the exact product does. *)
Lemma mul_bound : forall (x y a : float) m e,
  is_number x -> Z.abs (value x) < huge ->
  Prim2SF y = S754_finite false m e ->
  Zpos (digits2_pos m) = 53 -> e <= 0 ->
  positive_finite a ->
  Z.abs (value x) * Zpos m <= value a * 2 ^ (- e) ->
  is_number (x * y)
  /\ Z.abs (value (x * y)) <= value a
  /\ (0 <= value x -> 0 <= value (x * y))
  /\ (value x <= 0 -> value (x * y) <= 0).
Proof.
  intros x y a m e Hx Hfin E Hd He Ha Hle.
  destruct (positive_finite_inv a Ha) as (ma & ea & Ea & Ba).
  unfold is_number, value in *. rewrite mul_spec, E, <- !SFmag_abs in *.
  rewrite Ea in Hle |- *. cbn [SFord] in Hle |- *.
  apply SFmul_bound; try assumption. apply float_number; exact Hx.
Qed.

End Rounding.

(** ** The speed stays in range, in binary64 *)

Section SpeedRange.

Local Open Scope Z_scope.

Lemma ten_below_huge : 10 * one64 < huge.
Proof. vm_compute. reflexivity. Qed.

Lemma ceiling_range : forall g : Game float,
  is_number (currentMaxSpeed g)
  /\ (value (currentMaxSpeed g) = 10 * one64 \/ value (currentMaxSpeed g) = 2 * one64).
Proof.
  intros g. unfold currentMaxSpeed. destruct (isBoosting g).
  - split; [vm_compute; discriminate|left; vm_compute; reflexivity].
  - split; [vm_compute; discriminate|right; vm_compute; reflexivity].
Qed.

Lemma floor_range : forall g : Game float,
  is_number (- currentMaxSpeed g / lit 2)%num
  /\ (value (- currentMaxSpeed g / lit 2)%num = - (5 * one64)
      \/ value (- currentMaxSpeed g / lit 2)%num = - one64).
Proof.
  intros g. unfold currentMaxSpeed. destruct (isBoosting g).
  - split; [vm_compute; discriminate|left; vm_compute; reflexivity].
  - split; [vm_compute; discriminate|right; vm_compute; reflexivity].
Qed.

Lemma accelerate_range : forall (s c : float),
  is_number s -> is_number c ->
  is_number (Math_min (s + acceleration) c)%num
  /\ value (Math_min (s + acceleration) c)%num <= value c
  /\ Z.min (value s) (value c) <= value (Math_min (s + acceleration) c)%num.
Proof.
  intros s c Hs Hc.
  assert (Hp : positive_finite (@acceleration float binary64))
    by (vm_compute; exact I).
  destruct (add_increase s _ Hs Hp) as [Hn Hle].
  change (@Math_min float binary64) with Binary64.min.
  change (@add float binary64) with PrimFloat.add.
  destruct (min_value _ c Hn Hc) as [_ Hv].
  split; [apply min_number; assumption|]. lia.
Qed.

Lemma brake_range : forall (s c : float),
  is_number s -> is_number c ->
  is_number (Math_max (s - acceleration * lit 2) c)%num
  /\ value c <= value (Math_max (s - acceleration * lit 2) c)%num
  /\ value (Math_max (s - acceleration * lit 2) c)%num
     <= Z.max (value s) (value c).
Proof.
  intros s c Hs Hc.
  assert (Hp : positive_finite (@acceleration float binary64 * lit 2)%num)
    by (vm_compute; exact I).
  destruct (sub_decrease s _ Hs Hp) as [Hn Hle].
  change (@Math_max float binary64) with Binary64.max.
  change (@sub float binary64) with PrimFloat.sub.
  destruct (max_value _ c Hn Hc) as [_ Hv].
  split; [apply max_number; assumption|]. lia.
Qed.

Lemma coast_range : forall s : float,
  speed_in_range s -> speed_in_range (s * lit 0.95)%num.
Proof.
  intros s [Hs Hr].
  pose proof one64_pos as HU. pose proof ten_below_huge as HB.
  change (@mul float binary64) with PrimFloat.mul.
  destruct (Z_le_gt_dec 0 (value s)) as [Hpos|Hneg].
  - edestruct (mul_bound s (lit 0.95) 10%float) as (Hn & Ha & Hp & _).
    + exact Hs.
    + lia.
    + vm_compute. reflexivity.
    + vm_compute. reflexivity.
    + lia.
    + vm_compute. exact I.
    + replace (value 10) with (10 * one64) by (vm_compute; reflexivity).
      change (2 ^ (- (-53))) with 9007199254740992. lia.
    + replace (value 10) with (10 * one64) in Ha by (vm_compute; reflexivity).
      split; [exact Hn|]. specialize (Hp Hpos). lia.
  - edestruct (mul_bound s (lit 0.95) 5%float) as (Hn & Ha & _ & Hp).
    + exact Hs.
    + lia.
    + vm_compute. reflexivity.
    + vm_compute. reflexivity.
    + lia.
    + vm_compute. exact I.
    + replace (value 5) with (5 * one64) by (vm_compute; reflexivity).
      change (2 ^ (- (-53))) with 9007199254740992. lia.
    + replace (value 5) with (5 * one64) in Ha by (vm_compute; reflexivity).
      split; [exact Hn|]. specialize (Hp ltac:(lia)). lia.
Qed.

Lemma bounce_range : forall s : float,
  speed_in_range s -> speed_in_range (- s * lit 0.5)%num.
Proof.
  intros s [Hs Hr].
  pose proof one64_pos as HU. pose proof ten_below_huge as HB.
  change (@mul float binary64) with PrimFloat.mul.
  change (@neg float binary64) with PrimFloat.opp.
  destruct (opp_value s) as [Hn' Hv]. specialize (Hn' Hs).
  edestruct (mul_bound (- s) (lit 0.5) 5%float) as (Hn & Ha & _ & _).
  - exact Hn'.
  - lia.
  - vm_compute. reflexivity.
  - vm_compute. reflexivity.
  - lia.
  - vm_compute. exact I.
  - replace (value 5) with (5 * one64) by (vm_compute; reflexivity).
    change (2 ^ (- (-53))) with 9007199254740992. lia.
  - replace (value 5) with (5 * one64) in Ha by (vm_compute; reflexivity).
    split; [exact Hn|]. lia.
Qed.

Lemma zero_range : speed_in_range (lit 0).
Proof.
  pose proof one64_pos. split; [vm_compute; discriminate|].
  replace (value (lit 0)) with 0 by (vm_compute; reflexivity). lia.
Qed.

Lemma updateSpeed_range : forall (e : Env float) (g : Game float),
  speed_in_range (speed g) -> speed_in_range (speed (updateSpeed e g)).
Proof.
  intros e g [Hs Hr]. pose proof one64_pos as HU.
  destruct (ceiling_range g) as [Hc Hcv].
  destruct (floor_range g) as [Hf Hfv].
  destruct (isAccelerating g) eqn:Ha.
  - rewrite (speed_updateSpeed_accelerating e g Ha).
    destruct (accelerate_range (speed g) (currentMaxSpeed g) Hs Hc)
      as (Hn & Hhi & Hlo).
    split; [exact Hn|]. lia.
  - destruct (isBraking g) eqn:Hb.
    + rewrite (speed_updateSpeed_braking e g Ha Hb).
      destruct (brake_range (speed g) _ Hs Hf) as (Hn & Hlo & Hhi).
      split; [exact Hn|]. lia.
    + rewrite (speed_updateSpeed_coasting e g Ha Hb).
      destruct (_ <? _)%num; [apply coast_range; split; assumption|apply zero_range].
Qed.

Lemma updateCarMovement_range : forall (e : Env float) (g : Game float),
  speed_in_range (speed g) -> speed_in_range (speed (updateCarMovement e g)).
Proof.
  intros e g Hs.
  pose proof (updateSpeed_range e g Hs) as H1.
  pose proof (speed_updateCarMovement e g) as Hc. cbv zeta in Hc.
  destruct Hc as [-> | [-> | [-> | ->]]].
  - exact Hs.
  - exact H1.
  - apply zero_range.
  - apply bounce_range. exact H1.
Qed.

Lemma reachable_range : forall trees (g : Game float),
  reachable trees g -> speed_in_range (speed g).
Proof.
  intros trees g Hr. induction Hr as [|ev g Hr IH].
  - apply zero_range.
  - destruct ev as [key|key|e|]; cbn [handle].
    + rewrite speed_handleKeyDown. exact IH.
    + rewrite speed_handleKeyUp. exact IH.
    + rewrite speed_animate. apply updateCarMovement_range. exact IH.
    + exact IH.
Qed.

Lemma SFabs_round_aux : forall s m e l,
  SFabs (binary_round_aux prec emax s m e l)
  = binary_round_aux prec emax false m e l.
Proof.
  intros s m e l. unfold binary_round_aux.
  destruct (shr_fexp prec emax m e l) as [mrs' e'].
  destruct (shr_fexp prec emax _ e' loc_Exact) as [mrs'' e''].
  destruct (shr_m mrs'') as [|q|q]; [reflexivity| |reflexivity].
  destruct (e'' <=? emax - prec); reflexivity.
Qed.

(** Halving commutes with the sign: [|(-s) * 0.5| = 0.5 * |s|], for every
    binary64 value [s]. *)
Lemma abs_half_opp : forall s : float,
  Math_abs (- s * lit 0.5)%num = (lit 0.5 * Math_abs s)%num.
Proof.
  intros s.
  change (abs (- s * lit 0.5) = (lit 0.5 * abs s))%float.
  apply Prim2SF_inj.
  rewrite abs_spec, !mul_spec, opp_spec, abs_spec.
  replace (Prim2SF (lit 0.5)) with (S754_finite false 4503599627370496 (-53))
    by (vm_compute; reflexivity).
  unfold SF64mul.
  destruct (Prim2SF s) as [sx|sx| |sx mx ex]; cbn [SFopp SFabs SFmul xorb];
    try reflexivity.
  rewrite SFabs_round_aux, Pos.mul_comm, Z.add_comm. reflexivity.
Qed.

Lemma normal_fraction_friction : normal_fraction (lit 0.95).
Proof.
  unfold normal_fraction.
  replace (Prim2SF (lit 0.95)) with (S754_finite false 8556839292003942 (-53))
    by (vm_compute; reflexivity).
  split; [reflexivity|]. split; [lia|]. vm_compute. discriminate.
Qed.

(** From the integer reading back to the comparisons of the program. *)
Lemma range_leb : forall s : float,
  speed_in_range s ->
  (- boostMaxSpeed / lit 2 <=? s)%num = true
  /\ (s <=? boostMaxSpeed)%num = true
  /\ (Math_abs s <=? boostMaxSpeed)%num = true.
Proof.
  intros s [Hs Hr].
  assert (Hlo : value (- boostMaxSpeed / lit 2)%num = - (5 * one64))
    by (vm_compute; reflexivity).
  assert (Hhi : value (@boostMaxSpeed float binary64) = 10 * one64)
    by (vm_compute; reflexivity).
  assert (Nlo : is_number (- boostMaxSpeed / lit 2)%num)
    by (vm_compute; discriminate).
  assert (Nhi : is_number (@boostMaxSpeed float binary64))
    by (vm_compute; discriminate).
  destruct (abs_value s) as [Na Va].
  split; [|split]; apply leb_value.
  - repeat split; try assumption; lia.
  - repeat split; try assumption; lia.
  - split; [apply Na; exact Hs|]. split; [exact Nhi|].
    change (@Math_abs float binary64) with PrimFloat.abs. lia.
Qed.

Lemma clamp_leb : forall (e : Env float) (g : Game float),
  is_number (speed g) ->
  (isAccelerating g = true ->
   (speed (updateSpeed e g) <=? currentMaxSpeed g)%num = true)
  /\ (isAccelerating g = false -> isBraking g = true ->
      (- currentMaxSpeed g / lit 2 <=? speed (updateSpeed e g))%num = true)
  /\ (isAccelerating g = false -> isBraking g = false ->
      (Math_abs (speed (updateSpeed e g)) <=? Math_abs (speed g))%num = true).
Proof.
  intros e g Hs.
  destruct (ceiling_range g) as [Hc _]. destruct (floor_range g) as [Hf _].
  split; [|split].
  - intros Ha. rewrite (speed_updateSpeed_accelerating e g Ha).
    destruct (accelerate_range (speed g) (currentMaxSpeed g) Hs Hc)
      as (Hn & Hhi & _).
    apply leb_value. repeat split; assumption.
  - intros Ha Hb. rewrite (speed_updateSpeed_braking e g Ha Hb).
    destruct (brake_range (speed g) _ Hs Hf) as (Hn & Hlo & _).
    apply leb_value. repeat split; assumption.
  - intros Ha Hb. rewrite (speed_updateSpeed_coasting e g Ha Hb).
    destruct (abs_value (speed g)) as [Na Va].
    apply leb_value.
    change (@Math_abs float binary64) with PrimFloat.abs.
    destruct (_ <? _)%num.
    + destruct (mul_shrink (speed g) (lit 0.95) Hs normal_fraction_friction)
        as [Hn Hle].
      change (@mul float binary64) with PrimFloat.mul.
      destruct (abs_value (speed g * lit 0.95)) as [Na' Va'].
      split; [apply Na'; exact Hn|]. split; [apply Na; exact Hs|].
      rewrite Va, Va'. exact Hle.
    + split; [vm_compute; discriminate|]. split; [apply Na; exact Hs|].
      rewrite Va. replace (value (abs (lit 0))) with 0 by (vm_compute; reflexivity).
      lia.
Qed.

(** Under throttle the speed does not fall while it is at most the
    ceiling. *)
Lemma accelerate_monotone : forall (e : Env float) (g : Game float),
  isAccelerating g = true ->
  (speed g <=? currentMaxSpeed g)%num = true ->
  (speed g <=? speed (updateSpeed e g))%num = true
  /\ (speed (updateSpeed e g) <=? currentMaxSpeed g)%num = true.
Proof.
  intros e g Ha Hle. apply leb_value in Hle. destruct Hle as (Hs & Hc & Hle).
  rewrite (speed_updateSpeed_accelerating e g Ha).
  destruct (accelerate_range (speed g) (currentMaxSpeed g) Hs Hc)
    as (Hn & Hhi & Hlo).
  split; apply leb_value; repeat split; try assumption; lia.
Qed.

End SpeedRange.

Set Implicit Arguments.

(** ** The speed invariant *)

(** C5 as stated fails after [Run.boostThenRelease]: thirty frames of
    boost and throttle with no obstacle anywhere, then both keys released
    and one frame of coasting.  The game is reachable, the boost flag is
    off, so the active ceiling is the normal one, 2, and the speed is
    about 2.85; no collision has taken place. *)
Lemma speed_above_ceiling_after_boost_release :
  let g := run Run.boostThenRelease (initial []) in
  reachable [] g
  /\ objects g = []
  /\ isBoosting g = false
  /\ currentMaxSpeed g = 2%float
  /\ speed g = 2.850000000000001%float
  /\ (currentMaxSpeed g <? Math_abs (speed g))%num = true
  /\ isVibrating g = false.
Proof.
  split.
  - apply reachable_run. apply reachable_initial.
  - vm_compute. repeat split.
Qed.

(** C5, amended.  In the binary64 arithmetic of the program every
    reachable game has [- boostMaxSpeed / 2 <= speed <= boostMaxSpeed], so
    the magnitude of the speed never exceeds the boosted ceiling, whichever
    ceiling is active.  The active ceiling bounds only what a frame
    assigns: under throttle the new speed is at most the ceiling of that
    frame, under the brake it is at least minus half of it, and coasting
    never raises the magnitude; a speed gained under boost therefore stays
    above the normal ceiling after the boost key is released until
    friction, the brake or a collision bring it down.  The bounce-back
    [bounce] replaces the speed [s] by [- s * 0.5], of magnitude
    [0.5 * |s|].  For every state whatever, NaN included, the speed
    assigned under throttle is not above the ceiling and the speed assigned
    under the brake is not below minus half of it. *)
Theorem speed_within_boost_ceiling :
  (forall (trees : list (Object3D float)) (g : Game float),
      reachable trees g ->
      (- boostMaxSpeed / lit 2 <=? speed g)%num = true
      /\ (speed g <=? boostMaxSpeed)%num = true
      /\ (Math_abs (speed g) <=? boostMaxSpeed)%num = true)
  /\ (forall (trees : list (Object3D float)) (e : Env float) (g : Game float),
         reachable trees g ->
         (isAccelerating g = true ->
          (speed (updateSpeed e g) <=? currentMaxSpeed g)%num = true)
         /\ (isAccelerating g = false -> isBraking g = true ->
             (- currentMaxSpeed g / lit 2 <=? speed (updateSpeed e g))%num = true)
         /\ (isAccelerating g = false -> isBraking g = false ->
             (Math_abs (speed (updateSpeed e g)) <=? Math_abs (speed g))%num
             = true))
  /\ (forall (e : Env float) (p : Vector3 float) (c : Object3D float)
             (g : Game float),
         speed (bounce e p c g) = (- speed g * lit 0.5)%num
         /\ Math_abs (speed (bounce e p c g))
            = (lit 0.5 * Math_abs (speed g))%num)
  /\ (forall (e : Env float) (g : Game float),
         (isAccelerating g = true ->
          (currentMaxSpeed g <? speed (updateSpeed e g))%num = false)
         /\ (isAccelerating g = false -> isBraking g = true ->
             (speed (updateSpeed e g) <? - currentMaxSpeed g / lit 2)%num
             = false)).
Proof.
  split; [|split; [|split]].
  - intros trees g Hr. apply range_leb. exact (reachable_range trees g Hr).
  - intros trees e g Hr. apply clamp_leb.
    exact (proj1 (reachable_range trees g Hr)).
  - intros e p c g. rewrite speed_bounce. split; [reflexivity|].
    apply abs_half_opp.
  - exact binary64_speed_clamped.
Qed.

Lemma speed_within_boost_ceiling_witness :
  let g := run [CarLoaded; KeyDown "Shift"%string; KeyDown "w"%string;
                AnimationFrame Run.quiet; AnimationFrame Run.quiet]
               (initial (N:=float) []) in
  reachable [] g
  /\ speed g = 0.2%float
  /\ (speed g <=? boostMaxSpeed)%num = true
  /\ isAccelerating g = true
  /\ (speed (updateSpeed Run.quiet g) <=? currentMaxSpeed g)%num = true.
Proof.
  cbv zeta.
  set (g := run _ _).
  assert (R : reachable [] g).
  { apply reachable_run. apply reachable_initial. }
  destruct speed_within_boost_ceiling as (Hinv & Hclamp & _).
  split; [exact R|]. split; [vm_compute; reflexivity|].
  split; [exact (proj1 (proj2 (Hinv _ _ R)))|].
  split; [reflexivity|].
  exact (proj1 (Hclamp _ Run.quiet g R) eq_refl).
Defined.

(** ** Acceleration *)

(** C6 as stated fails on scenario A run in binary64, the arithmetic of
    the program: the throttle is held from rest, the brake is not, the
    increment is 0.1 and the ceiling is 2, and after ten frames the speed
    is ten times 0.1 added up, 0.9999999999999999 = 1 - 2^-53, where the
    claim has [min (0.1 * 10) 2], which is exactly 1. *)
Lemma ten_frames_of_throttle_fall_short_of_one :
  let g := Run.throttleFromRest in
  let g' := frames 10 Run.quiet g in
  speed g = 0%float
  /\ isAccelerating g = true /\ isBraking g = false
  /\ acceleration = 0.1%float
  /\ currentMaxSpeed g = 2%float
  /\ isAccelerating g' = true /\ isBraking g' = false
  /\ speed g' = 0x1.fffffffffffffp-1%float
  /\ (Math_min (lit 0.1 * lit 10) (lit 2))%num = 1%float
  /\ speed g' <> (Math_min (lit 0.1 * lit 10) (lit 2))%num
  /\ speed g' <> 1%float.
Proof.
  vm_compute. repeat split; intro E; discriminate E.
Qed.

(** C6, amended.  With the throttle held (the brake flag is then not
    looked at) the speed update assigns
    [min (speed + acceleration) currentMaxSpeed].  In binary64 the new
    speed is never above the ceiling, and it is at least the old speed
    whenever the old speed was at most the ceiling; in every reachable game
    the new speed is at most the ceiling.  From rest with increment 0.1 and
    ceiling 2, ten such frames add 0.1 ten times: the binary64 sum is
    0.9999999999999999 = 1 - 2^-53, one unit in the last place below 1. *)
Theorem acceleration_monotone_up_to_ceiling :
  (forall (N : Type) (H : Number N) (e : Env N) (g : Game N),
      isAccelerating g = true ->
      speed (updateSpeed e g)
      = (Math_min (speed g + acceleration) (currentMaxSpeed g))%num)
  /\ (forall (e : Env float) (g : Game float),
         isAccelerating g = true ->
         (currentMaxSpeed g <? speed (updateSpeed e g))%num = false
         /\ ((speed g <=? currentMaxSpeed g)%num = true ->
             (speed g <=? speed (updateSpeed e g))%num = true
             /\ (speed (updateSpeed e g) <=? currentMaxSpeed g)%num = true))
  /\ (forall (trees : list (Object3D float)) (e : Env float) (g : Game float),
         reachable trees g -> isAccelerating g = true ->
         (speed (updateSpeed e g) <=? currentMaxSpeed g)%num = true)
  /\ speed (frames 10 Run.quiet Run.throttleFromRest) = 0x1.fffffffffffffp-1%float
  /\ PrimFloat.next_up (speed (frames 10 Run.quiet Run.throttleFromRest))
     = 1%float.
Proof.
  split; [intros; apply speed_updateSpeed_accelerating; assumption|].
  split.
  { intros e g Ha. split; [exact (proj1 (binary64_speed_clamped e g) Ha)|].
    intros Hle. exact (accelerate_monotone e g Ha Hle). }
  split.
  { intros trees e g Hr Ha.
    exact (proj1 (clamp_leb e g (proj1 (reachable_range trees g Hr))) Ha). }
  split; vm_compute; reflexivity.
Qed.

Lemma acceleration_monotone_up_to_ceiling_witness :
  let g := animate Run.quiet Run.throttleFromRest in
  isAccelerating g = true
  /\ speed g = 0.1%float
  /\ (speed g <=? currentMaxSpeed g)%num = true
  /\ (speed g <=? speed (updateSpeed Run.quiet g))%num = true.
Proof.
  cbv zeta.
  set (g := animate Run.quiet Run.throttleFromRest).
  destruct acceleration_monotone_up_to_ceiling as (_ & Hmono & _).
  assert (Ha : isAccelerating g = true) by reflexivity.
  assert (Hle : (speed g <=? currentMaxSpeed g)%num = true)
    by (vm_compute; reflexivity).
  split; [exact Ha|]. split; [vm_compute; reflexivity|].
  split; [exact Hle|].
  exact (proj1 (proj2 (Hmono Run.quiet g Ha) Hle)).
Defined.

(** ** Camera mode *)

Section CameraMode.

Context {N : Type} `{Number N}.

Local Open Scope num_scope.

Implicit Types (g : Game N) (c : Object3D N).

Lemma handleKeyDown_c : forall g,
  handleKeyDown "c" g
  = if isOrbitMode g then set_isOrbitMode false g
    else match car g with
         | None => set_isOrbitMode true g
         | Some c =>
           set_orbitControls
             (mkOrbitControls (enabled (orbitControls g)) (position c))
             (set_camera
                (mkCamera (Vector3_add (position c)
                                       (chaseOffset (v_y (rotation c))))
                          (camera_lookAt (camera g)))
                (set_isOrbitMode true g))
         end.
Proof.
  intros g. unfold handleKeyDown. cbn [toLowerCase keyIs existsb].
  change (String.eqb (String (lowerChar "c") EmptyString) "w") with false.
  change (String.eqb (String (lowerChar "c") EmptyString) "arrowup") with false.
  change (String.eqb (String (lowerChar "c") EmptyString) "s") with false.
  change (String.eqb (String (lowerChar "c") EmptyString) "arrowdown") with false.
  change (String.eqb (String (lowerChar "c") EmptyString) "a") with false.
  change (String.eqb (String (lowerChar "c") EmptyString) "arrowleft") with false.
  change (String.eqb (String (lowerChar "c") EmptyString) "d") with false.
  change (String.eqb (String (lowerChar "c") EmptyString) "arrowright") with false.
  change (String.eqb (String (lowerChar "c") EmptyString) "c") with true.
  cbn [orb].
  destruct g as [car0 ? ? ? ? ? ? ? ? ? orbit ? ? ? ?].
  destruct orbit; [reflexivity|]. destruct car0; reflexivity.
Qed.

Lemma toggleCameraMode_c : forall g,
  toggleCameraMode "c" g
  = match car g with
    | None =>
      set_orbitControls
        (mkOrbitControls (negb (isOrbitMode g)) (target (orbitControls g)))
        (set_isOrbitMode (negb (isOrbitMode g)) g)
    | Some c =>
      if isOrbitMode g then
        set_camera
          (mkCamera (Vector3_add (position c) (resetOffset (carRotation g)))
                    (position c))
          (set_orbitControls
             (mkOrbitControls false (target (orbitControls g)))
             (set_isOrbitMode false g))
      else
        set_orbitControls (mkOrbitControls true (position c))
                          (set_isOrbitMode true g)
    end.
Proof.
  intros g. unfold toggleCameraMode.
  change (keyIs "c" ["c"; "C"]%string) with true. cbv iota.
  destruct g as [car0 ? ? ? ? ? ? ? ? ? orbit ? ? ? ?].
  destruct car0, orbit; reflexivity.
Qed.

Lemma carRotation_handle : forall (ev : Event N) g,
  carRotation (handle ev g) = carRotation g.
Proof.
  intros ev g. destruct ev as [key|key|e|]; cbn [handle].
  - unfold handleKeyDown.
    repeat match goal with
           | |- context [if ?b then _ else _] => destruct b
           | |- context [match ?o with Some _ => _ | None => _ end] => destruct o
           end; reflexivity.
  - unfold handleKeyUp.
    repeat match goal with
           | |- context [if ?b then _ else _] => destruct b
           end; reflexivity.
  - assert (Hu : carRotation (updateCarMovement e g) = carRotation g).
    { destruct (car g) as [c0|] eqn:Hcar.
      - rewrite (updateCarMovement_unfold e g Hcar).
        destruct (beforeChecks_shape e c0 g) as (cam & oc & bp & Hs).
        destruct (outOfBounds (position (movedCar e c0 g))).
        + rewrite Hs. reflexivity.
        + unfold afterCollisions.
          assert (Hc : forall objs,
                     carRotation (collide e (position c0) (movedCar e c0 g) objs
                                          (beforeChecks e c0 g))
                     = carRotation g).
          { intros objs.
            destruct (existsb (hits (movedCar e c0 g)) objs) eqn:Hex.
            - rewrite (collide_hit _ _ _ _ _ Hex), Hs. reflexivity.
            - rewrite (collide_miss _ _ _ _ _ Hex), Hs. reflexivity. }
          rewrite <- (Hc (objects (beforeChecks e c0 g))).
          unfold handleVibration.
          repeat match goal with
                 | |- context [if ?b then _ else _] => destruct b
                 | |- context [match ?o with Some _ => _ | None => _ end] =>
                   destruct o
                 end; reflexivity.
      - unfold updateCarMovement. rewrite Hcar. reflexivity. }
    unfold animate. destruct (isOrbitMode (updateCarMovement e g)); exact Hu.
  - reflexivity.
Qed.

Lemma reachable_carRotation : forall trees g,
  reachable trees g -> carRotation g = lit 0.
Proof.
  intros trees g Hr. induction Hr as [|ev g Hr IH].
  - reflexivity.
  - rewrite carRotation_handle. exact IH.
Qed.

End CameraMode.

(** C9 as stated fails on [Run.orbiting] for the registered handler: the
    game is in orbit mode with the camera at (3, 4, 5); the key [c]
    switches back to chase mode and leaves the camera where it is, not at
    the car plus the chase offset, (0, 7.5, -15). *)
Lemma key_c_back_to_chase_leaves_camera :
  let g := Run.orbiting in
  let g' := handleKeyDown "c" g in
  isOrbitMode g = true
  /\ isOrbitMode g' = false
  /\ car g' = Some (Run.carAt (Run.at_ 0 0.5 0))
  /\ camera g' = camera g
  /\ camera_position (camera g') = Run.at_ 3 4 5
  /\ Vector3_add (Run.at_ 0 0.5 0) (chaseOffset 0%float) = Run.at_ 0 7.5 (-15)
  /\ camera_position (camera g')
     <> Vector3_add (Run.at_ 0 0.5 0) (chaseOffset 0%float)
  /\ camera_position (camera (toggleCameraMode "c" g)) = Run.at_ 0 7.5 (-15).
Proof.
  vm_compute. repeat split. intro E; discriminate E.
Qed.

(** C9, amended.  Each toggle flips [isOrbitMode] and nothing else of the
    vehicle, so two toggles in a row restore the mode and leave the car,
    and with it the chase offset [(-15 sin h, 7, -15 cos h)] that the
    next frame computes from the heading [h], as they were.  The key
    handler, which is the toggle the program registers, recomputes
    nothing on the switch back to chase mode: it only clears the flag and
    leaves the camera to the interpolation of the following frames; it is
    on the switch to orbit mode that it puts the camera at the car plus
    the chase offset and the orbit target at the car.  [toggleCameraMode],
    which is registered nowhere, does set the camera at once and without
    interpolation on the switch back to chase mode, to the car plus the
    offset computed from the field [carRotation], which no event ever
    changes from 0, and aims it at the car. *)
Theorem camera_toggle_flips_mode :
  forall (N : Type) (H : Number N) (g : Game N),
    let t := handleKeyDown "c" in
    let u := toggleCameraMode "c" in
    let offset (g0 : Game N) :=
      option_map (fun c => chaseOffset (v_y (rotation c))) (car g0) in
    (handleKeyDown "C" g = t g /\ toggleCameraMode "C" g = u g)
    /\ (isOrbitMode (t g) = negb (isOrbitMode g)
        /\ car (t g) = car g /\ speed (t g) = speed g)
    /\ (isOrbitMode (t (t g)) = isOrbitMode g
        /\ car (t (t g)) = car g /\ offset (t (t g)) = offset g)
    /\ (isOrbitMode g = true -> t g = set_isOrbitMode false g)
    /\ (isOrbitMode g = false -> forall c, car g = Some c ->
        camera_position (camera (t g))
        = Vector3_add (position c) (chaseOffset (v_y (rotation c)))
        /\ target (orbitControls (t g)) = position c)
    /\ (isOrbitMode (u g) = negb (isOrbitMode g)
        /\ car (u g) = car g /\ speed (u g) = speed g)
    /\ (isOrbitMode (u (u g)) = isOrbitMode g
        /\ car (u (u g)) = car g /\ offset (u (u g)) = offset g)
    /\ (isOrbitMode g = true -> forall c, car g = Some c ->
        camera (u g)
        = mkCamera (Vector3_add (position c) (resetOffset (carRotation g)))
                   (position c))
    /\ (isOrbitMode g = false -> forall c, car g = Some c ->
        camera (u g) = camera g /\ target (orbitControls (u g)) = position c)
    /\ (forall trees, reachable trees g -> carRotation g = lit 0).
Proof.
  intros N H g t u offset.
  assert (Ht : forall g0, isOrbitMode (t g0) = negb (isOrbitMode g0)
                          /\ car (t g0) = car g0 /\ speed (t g0) = speed g0).
  { intros g0. unfold t. rewrite handleKeyDown_c.
    destruct (isOrbitMode g0) eqn:E; [|destruct (car g0) eqn:E'];
      repeat split; cbn; rewrite ?E, ?E'; reflexivity. }
  assert (Hu : forall g0, isOrbitMode (u g0) = negb (isOrbitMode g0)
                          /\ car (u g0) = car g0 /\ speed (u g0) = speed g0).
  { intros g0. unfold u. rewrite toggleCameraMode_c.
    destruct (car g0) eqn:E'; [destruct (isOrbitMode g0) eqn:E|];
      repeat split; cbn; rewrite ?E, ?E'; reflexivity. }
  split; [split; reflexivity|].
  split; [apply Ht|].
  split.
  { destruct (Ht g) as (A1 & A2 & _), (Ht (t g)) as (B1 & B2 & _).
    rewrite B1, A1, negb_involutive. unfold offset. rewrite B2, A2. auto. }
  split.
  { intros E. unfold t. rewrite handleKeyDown_c, E. reflexivity. }
  split.
  { intros E c Hc. unfold t. rewrite handleKeyDown_c, E, Hc. split; reflexivity. }
  split; [apply Hu|].
  split.
  { destruct (Hu g) as (A1 & A2 & _), (Hu (u g)) as (B1 & B2 & _).
    rewrite B1, A1, negb_involutive. unfold offset. rewrite B2, A2. auto. }
  split.
  { intros E c Hc. unfold u. rewrite toggleCameraMode_c, E, Hc. reflexivity. }
  split.
  { intros E c Hc. unfold u. rewrite toggleCameraMode_c, E, Hc.
    split; reflexivity. }
  intros trees Hr. exact (reachable_carRotation Hr).
Qed.

Lemma camera_toggle_flips_mode_witness :
  isOrbitMode Run.orbiting = true
  /\ handleKeyDown "c" Run.orbiting = set_isOrbitMode false Run.orbiting
  /\ car Run.orbiting = Some (Run.carAt (Run.at_ 0 0.5 0))
  /\ camera (toggleCameraMode "c" Run.orbiting)
     = mkCamera (Run.at_ 0 7.5 (-15)) (Run.at_ 0 0.5 0).
Proof.
  destruct (@camera_toggle_flips_mode float binary64 Run.orbiting)
    as (_ & _ & _ & Hback & _ & _ & _ & Hreset & _).
  split; [reflexivity|]. split; [exact (Hback eq_refl)|].
  split; [reflexivity|].
  rewrite (Hreset eq_refl _ eq_refl). vm_compute. reflexivity.
Defined.

(** ** What a frame and the keys leave alone *)

Section Frame.

Context {N : Type} `{Number N}.

Local Open Scope num_scope.

Implicit Types (e : Env N) (g : Game N) (c : Object3D N).

(** A reading [f] of the game that no write to the car, the speed, the
    camera, the orbit rig, the flames and the vibration state changes is
    the same after a frame as before it. *)
Section Kept.

Variables (A : Type) (f : Game N -> A).
Hypothesis f_car : forall v g, f (set_car v g) = f g.
Hypothesis f_speed : forall v g, f (set_speed v g) = f g.
Hypothesis f_camera : forall v g, f (set_camera v g) = f g.
Hypothesis f_orbitControls : forall v g, f (set_orbitControls v g) = f g.
Hypothesis f_boostParticles : forall v g, f (set_boostParticles v g) = f g.
Hypothesis f_isVibrating : forall v g, f (set_isVibrating v g) = f g.
Hypothesis f_vibrationTime : forall v g, f (set_vibrationTime v g) = f g.

Lemma kept_beforeChecks : forall e c0 g, f (beforeChecks e c0 g) = f g.
Proof.
  intros e c0 g. destruct (beforeChecks_shape e c0 g) as (cam & oc & bp & ->).
  rewrite f_boostParticles, f_camera, f_orbitControls, f_speed, f_car.
  reflexivity.
Qed.

Lemma kept_respawnCar : forall g, f (respawnCar g) = f g.
Proof.
  intros g. unfold respawnCar. destruct (car g); [|reflexivity].
  rewrite f_isVibrating, f_speed, f_car. reflexivity.
Qed.

Lemma kept_collide : forall e prev c objs g, f (collide e prev c objs g) = f g.
Proof.
  intros e prev c objs g.
  destruct (existsb (hits c) objs) eqn:Hex.
  - rewrite (collide_hit _ _ _ _ _ Hex). unfold bounce.
    rewrite f_vibrationTime, f_isVibrating, f_speed, f_car. reflexivity.
  - rewrite (collide_miss _ _ _ _ _ Hex). reflexivity.
Qed.

Lemma kept_handleVibration : forall e g, f (handleVibration e g) = f g.
Proof.
  intros e g. unfold handleVibration.
  destruct (isVibrating g); [|reflexivity].
  destruct (_ <? _).
  - destruct (car g); [apply f_car|reflexivity].
  - apply f_isVibrating.
Qed.

Lemma kept_updateCarMovement : forall e g, f (updateCarMovement e g) = f g.
Proof.
  intros e g. destruct (car g) as [c0|] eqn:Hcar.
  - rewrite (updateCarMovement_unfold e g Hcar).
    destruct (outOfBounds _).
    + rewrite kept_respawnCar. apply kept_beforeChecks.
    + rewrite kept_handleVibration. unfold afterCollisions.
      rewrite kept_collide. apply kept_beforeChecks.
  - unfold updateCarMovement. rewrite Hcar. reflexivity.
Qed.

Lemma kept_animate : forall e g, f (animate e g) = f g.
Proof.
  intros e g. unfold animate.
  destruct (isOrbitMode _); [rewrite f_camera|]; apply kept_updateCarMovement.
Qed.

End Kept.

(** X1.  A frame ([animate], with [updateCarMovement] inside) leaves the
    obstacles, the four driving flags, the boost flag, the camera mode and
    the field [carRotation] as they were: the keys alone set the flags, and
    nothing moves or removes a tree. *)
Theorem frame_leaves_keys_and_obstacles : forall e g,
  objects (animate e g) = objects g
  /\ isAccelerating (animate e g) = isAccelerating g
  /\ isBraking (animate e g) = isBraking g
  /\ isTurningLeft (animate e g) = isTurningLeft g
  /\ isTurningRight (animate e g) = isTurningRight g
  /\ isBoosting (animate e g) = isBoosting g
  /\ isOrbitMode (animate e g) = isOrbitMode g
  /\ carRotation (animate e g) = carRotation g.
Proof.
  intros e g. repeat split; apply kept_animate; intros ? []; reflexivity.
Qed.

Lemma objects_handle : forall (ev : Event N) g,
  objects (handle ev g) = objects g.
Proof.
  intros ev g. destruct ev as [key|key|e|]; cbn [handle].
  - unfold handleKeyDown.
    repeat match goal with
           | |- context [if ?b then _ else _] => destruct b
           | |- context [match ?o with Some _ => _ | None => _ end] => destruct o
           end; destruct g; reflexivity.
  - unfold handleKeyUp.
    repeat match goal with
           | |- context [if ?b then _ else _] => destruct b
           end; destruct g; reflexivity.
  - apply kept_animate; intros ? []; reflexivity.
  - destruct g; reflexivity.
Qed.

(** X2.  The obstacles of every reachable game are the trees the game was
    built around, in their order: no key, no frame and no loading of the
    car adds, moves or removes one. *)
Theorem obstacles_never_change : forall trees g,
  reachable trees g -> objects g = trees.
Proof.
  intros trees g Hr. induction Hr as [|ev g Hr IH].
  - reflexivity.
  - rewrite objects_handle. exact IH.
Qed.

End Frame.

Lemma obstacles_never_change_witness :
  let trees := [Run.tree 200 10; Run.tree 0 2.7] in
  let g := run [CarLoaded; KeyDown "w"%string; AnimationFrame Run.quiet;
                AnimationFrame Run.noisy] (initial trees) in
  reachable trees g /\ objects g = trees.
Proof.
  cbv zeta.
  set (trees := [Run.tree 200 10; Run.tree 0 2.7]).
  set (g := run _ _).
  assert (R : reachable trees g).
  { apply reachable_run. apply reachable_initial. }
  split; [exact R|]. exact (obstacles_never_change R).
Defined.

(** ** The keys *)

Lemma lowerChar_idempotent : forall c, lowerChar (lowerChar c) = lowerChar c.
Proof.
  intros [[] [] [] [] [] [] [] []]; reflexivity.
Qed.

Lemma toLowerCase_idempotent : forall s,
  toLowerCase (toLowerCase s) = toLowerCase s.
Proof.
  induction s as [|c s IH]; cbn [toLowerCase].
  - reflexivity.
  - rewrite lowerChar_idempotent, IH. reflexivity.
Qed.

Section Keys.

Context {N : Type} `{Number N}.

Local Open Scope num_scope.

Implicit Types (e : Env N) (g : Game N) (c : Object3D N).

(** X3.  The two handlers read the key through [toLowerCase] only, so they
    do not tell a capital from a small letter: [W] drives as [w] does, and
    [ArrowUp] is [arrowup]. *)
Theorem keys_ignore_case : forall key g,
  handleKeyDown (toLowerCase key) g = handleKeyDown key g
  /\ handleKeyUp (toLowerCase key) g = handleKeyUp key g.
Proof.
  intros key g. unfold handleKeyDown, handleKeyUp.
  rewrite toLowerCase_idempotent. split; reflexivity.
Qed.

(** X4.  For every key but [c]: a release after a press leaves the game
    as the release alone does, and pressing twice (key repeat) or
    releasing twice is the same as once. *)
Theorem release_undoes_press : forall key g,
  keyIs (toLowerCase key) ["c"]%string = false ->
  handleKeyUp key (handleKeyDown key g) = handleKeyUp key g
  /\ handleKeyUp key (handleKeyUp key g) = handleKeyUp key g
  /\ handleKeyDown key (handleKeyDown key g) = handleKeyDown key g.
Proof.
  intros key g Hc. unfold handleKeyUp, handleKeyDown. rewrite Hc.
  destruct (keyIs (toLowerCase key) ["w"; "arrowup"]%string);
    [destruct g; repeat split; reflexivity|].
  destruct (keyIs (toLowerCase key) ["s"; "arrowdown"]%string);
    [destruct g; repeat split; reflexivity|].
  destruct (keyIs (toLowerCase key) ["a"; "arrowleft"]%string);
    [destruct g; repeat split; reflexivity|].
  destruct (keyIs (toLowerCase key) ["d"; "arrowright"]%string);
    [destruct g; repeat split; reflexivity|].
  destruct (keyIs (toLowerCase key) ["shift"]%string);
    destruct g; repeat split; reflexivity.
Qed.

Lemma idle_handle : forall (ev : Event N) g,
  ev <> CarLoaded -> car g = None ->
  car (handle ev g) = None
  /\ speed (handle ev g) = speed g
  /\ boostParticles (handle ev g) = boostParticles g
  /\ isVibrating (handle ev g) = isVibrating g.
Proof.
  intros ev g Hev Hcar. destruct ev as [key|key|e|]; cbn [handle].
  - unfold handleKeyDown.
    repeat match goal with
           | |- context [if ?b then _ else _] => destruct b
           end;
      destruct g; cbn in *; subst; repeat split; reflexivity.
  - unfold handleKeyUp.
    repeat match goal with
           | |- context [if ?b then _ else _] => destruct b
           end; destruct g; cbn in *; subst; repeat split; reflexivity.
  - unfold animate, updateCarMovement. rewrite Hcar.
    destruct (isOrbitMode g); destruct g; cbn in *; subst; repeat split;
      reflexivity.
  - contradiction Hev. reflexivity.
Qed.

(** X5.  Until the model of the car has been loaded nothing moves: after
    any keys and frames without [CarLoaded] the game has no car, speed 0,
    no flame and no vibration (line 86 leaves [updateCarMovement] at
    once, and the handlers set flags only). *)
Theorem idle_until_loaded : forall trees (evs : list (Event N)),
  ~ In CarLoaded evs ->
  car (run evs (initial trees)) = None
  /\ speed (run evs (initial trees)) = lit 0
  /\ boostParticles (run evs (initial trees)) = []
  /\ isVibrating (run evs (initial trees)) = false.
Proof.
  intros trees evs.
  assert (G : forall g, ~ In CarLoaded evs -> car g = None ->
                car (run evs g) = None
                /\ speed (run evs g) = speed g
                /\ boostParticles (run evs g) = boostParticles g
                /\ isVibrating (run evs g) = isVibrating g).
  { induction evs as [|ev evs IH]; intros g Hn Hcar.
    - repeat split; assumption.
    - assert (Hev : ev <> CarLoaded)
        by (intros ->; apply Hn; left; reflexivity).
      assert (Hn' : ~ In CarLoaded evs)
        by (intros Hin; apply Hn; right; exact Hin).
      destruct (idle_handle g Hev Hcar) as (H1 & H2 & H3 & H4).
      change (run (ev :: evs) g) with (run evs (handle ev g)).
      destruct (IH (handle ev g) Hn' H1) as (K1 & K2 & K3 & K4).
      rewrite K2, K3, K4, H2, H3, H4.
      repeat split; [exact K1|..]; reflexivity. }
  intros Hn. destruct (G (initial trees) Hn eq_refl) as (K1 & K2 & K3 & K4).
  rewrite K2, K3, K4. repeat split; [exact K1|..]; reflexivity.
Qed.

End Keys.

Lemma release_undoes_press_witness :
  keyIs (toLowerCase "Shift") ["c"]%string = false
  /\ handleKeyUp "Shift" (handleKeyDown "Shift" Run.boostThrottle)
     = handleKeyUp "Shift" Run.boostThrottle
  /\ isBoosting (handleKeyUp "Shift" (handleKeyDown "Shift" Run.boostThrottle))
     = false.
Proof.
  split; [reflexivity|]. split; [|reflexivity].
  exact (proj1 (release_undoes_press "Shift" Run.boostThrottle eq_refl)).
Defined.

Lemma idle_until_loaded_witness :
  let evs := [KeyDown "w"%string; KeyDown "Shift"%string;
              AnimationFrame Run.quiet; KeyDown "c"%string;
              AnimationFrame Run.noisy] in
  ~ In CarLoaded evs
  /\ car (run evs (initial (N:=float) [])) = None
  /\ speed (run evs (initial (N:=float) [])) = 0%float.
Proof.
  cbv zeta.
  assert (Hn : ~ In CarLoaded
                 [KeyDown "w"%string; KeyDown "Shift"%string;
                  AnimationFrame Run.quiet; KeyDown "c"%string;
                  AnimationFrame Run.noisy]).
  { intros [E|[E|[E|[E|[E|[]]]]]]; discriminate E. }
  split; [exact Hn|].
  destruct (idle_until_loaded (N:=float) [] _ Hn) as (K1 & K2 & _).
  split; [exact K1|exact K2].
Defined.

(** ** Braking and coasting in binary64 *)

Unset Implicit Arguments.

Section SpeedDirection.

Local Open Scope Z_scope.

(** Friction keeps the sign of a speed in range. *)
Lemma coast_direction : forall s : float,
  speed_in_range s ->
  (0 <= value s -> 0 <= value (s * lit 0.95)%num)
  /\ (value s <= 0 -> value (s * lit 0.95)%num <= 0).
Proof.
  intros s [Hs Hr].
  pose proof one64_pos as HU. pose proof ten_below_huge as HB.
  change (@mul float binary64) with PrimFloat.mul.
  edestruct (mul_bound s (lit 0.95) 10%float) as (_ & _ & Hp & Hm).
  - exact Hs.
  - lia.
  - vm_compute. reflexivity.
  - vm_compute. reflexivity.
  - lia.
  - vm_compute. exact I.
  - replace (value 10) with (10 * one64) by (vm_compute; reflexivity).
    change (2 ^ (- (-53))) with 9007199254740992. lia.
  - split; assumption.
Qed.

(** X6.  Under the brake alone, in binary64: while the speed is at least
    the floor [- currentMaxSpeed / 2], the speed update never raises it
    and never takes it below the floor. *)
Theorem braking_monotone_down_to_floor :
  forall (e : Env float) (g : Game float),
    isAccelerating g = false -> isBraking g = true ->
    (- currentMaxSpeed g / lit 2 <=? speed g)%num = true ->
    (speed (updateSpeed e g) <=? speed g)%num = true
    /\ (- currentMaxSpeed g / lit 2 <=? speed (updateSpeed e g))%num = true.
Proof.
  intros e g Ha Hb Hle. apply leb_value in Hle. destruct Hle as (Hf & Hs & Hle).
  rewrite (speed_updateSpeed_braking e g Ha Hb).
  destruct (brake_range (speed g) _ Hs Hf) as (Hn & Hlo & Hhi).
  split; apply leb_value; repeat split; try assumption; lia.
Qed.

(** X7.  With neither throttle nor brake, in every reachable binary64
    game: friction never reverses the car.  A speed that is not negative
    stays so, and a speed that is not positive stays so. *)
Theorem coasting_keeps_direction :
  forall (trees : list (Object3D float)) (e : Env float) (g : Game float),
    reachable trees g ->
    isAccelerating g = false -> isBraking g = false ->
    ((lit 0 <=? speed g)%num = true ->
     (lit 0 <=? speed (updateSpeed e g))%num = true)
    /\ ((speed g <=? lit 0)%num = true ->
        (speed (updateSpeed e g) <=? lit 0)%num = true).
Proof.
  intros trees e g Hr Ha Hb.
  pose proof (reachable_range trees g Hr) as Hrange.
  destruct (coast_direction (speed g) Hrange) as [Hp Hm].
  destruct (coast_range (speed g) Hrange) as [Hn _].
  assert (Hz : value (lit 0) = 0) by (vm_compute; reflexivity).
  assert (Nz : is_number (lit 0)) by (vm_compute; discriminate).
  rewrite (speed_updateSpeed_coasting e g Ha Hb).
  split; intros Hle; apply leb_value in Hle; destruct Hle as (_ & _ & Hle);
    apply leb_value; rewrite Hz in *.
  - destruct (_ <? _)%num.
    + split; [exact Nz|]. split; [exact Hn|]. apply Hp. exact Hle.
    + split; [exact Nz|]. split; [exact Nz|]. lia.
  - destruct (_ <? _)%num.
    + split; [exact Hn|]. split; [exact Nz|]. apply Hm. exact Hle.
    + split; [exact Nz|]. split; [exact Nz|]. lia.
Qed.

End SpeedDirection.

Lemma braking_monotone_down_to_floor_witness :
  let g := Run.boostBrake in
  isAccelerating g = false /\ isBraking g = true
  /\ (- currentMaxSpeed g / lit 2 <=? speed g)%num = true
  /\ speed (updateSpeed Run.quiet g) = (-1.2)%float
  /\ (speed (updateSpeed Run.quiet g) <=? speed g)%num = true.
Proof.
  cbv zeta.
  assert (Hle : (- currentMaxSpeed Run.boostBrake / lit 2
                 <=? speed Run.boostBrake)%num = true)
    by (vm_compute; reflexivity).
  split; [reflexivity|]. split; [reflexivity|]. split; [exact Hle|].
  split; [vm_compute; reflexivity|].
  exact (proj1 (braking_monotone_down_to_floor Run.quiet Run.boostBrake
                  eq_refl eq_refl Hle)).
Defined.

Lemma coasting_keeps_direction_witness :
  let g := run Run.boostThenRelease (initial (N:=float) []) in
  reachable [] g
  /\ isAccelerating g = false /\ isBraking g = false
  /\ (lit 0 <=? speed g)%num = true
  /\ (lit 0 <=? speed (updateSpeed Run.quiet g))%num = true.
Proof.
  cbv zeta.
  set (g := run _ _).
  assert (R : reachable [] g).
  { apply reachable_run. apply reachable_initial. }
  assert (Ha : isAccelerating g = false) by (vm_compute; reflexivity).
  assert (Hb : isBraking g = false) by (vm_compute; reflexivity).
  assert (Hp : (lit 0 <=? speed g)%num = true) by (vm_compute; reflexivity).
  split; [exact R|]. split; [exact Ha|]. split; [exact Hb|]. split; [exact Hp|].
  exact (proj1 (coasting_keeps_direction [] Run.quiet g R Ha Hb) Hp).
Defined.

Set Implicit Arguments.
